(** * Tool-call extraction: DeepSeek R1 and Phi-4 reasoning parsers

    A shallow embedding of
      vllm/entrypoints/openai/tool_parsers/deepseek_r1.py
      vllm/entrypoints/openai/tool_parsers/phi4_reasoning_tool_parser.py
    together with the parts of the Python runtime the two parsers call:
    [str] methods, the two compiled patterns, and the [json] codec. *)

From Stdlib Require Import String Ascii.
From Stdlib Require Import List NArith ZArith Arith Bool Lia FinFun.
Import ListNotations.

Set Implicit Arguments.
Set Warnings "-register-all".  (* nested induction principles are stated by hand below *)

(** ** Exceptions

    Every handler in the two parsers is [except Exception]; what is raised is
    kept only so that statements can name it. *)

Inductive exn : Type :=
| JSONDecodeError
| KeyError
| TypeError
| ValueError
| MalformedCallError.

Inductive result (A : Type) : Type :=
| Ok (a : A)
| Raise (e : exn).

Arguments Ok {A} a.
Arguments Raise {A} e.

Definition bind {A B : Type} (r : result A) (k : A -> result B) : result B :=
  match r with
  | Ok a => k a
  | Raise e => Raise e
  end.

Notation "x <- r ;; k" := (bind r (fun x => k))
  (at level 61, r at next level, right associativity).

(** ** Python strings

    A Python [str] is a sequence of Unicode code points; the markers of the
    DeepSeek template are not ASCII, so a character is its code point. *)

Module PyStr.

Abbreviation char := N (only parsing).
Abbreviation str := (list N) (only parsing).

(** ASCII literals, written as Rocq strings. *)
Definition lit (s : string) : str :=
  map N_of_ascii (list_ascii_of_string s).

Fixpoint eqb (a b : str) : bool :=
  match a, b with
  | [], [] => true
  | x :: a', y :: b' => N.eqb x y && eqb a' b'
  | _, _ => false
  end.

(** [s.startswith(p)] *)
Fixpoint startswith (p s : str) : bool :=
  match p, s with
  | [], _ => true
  | x :: p', y :: s' => N.eqb x y && startswith p' s'
  | _ :: _, [] => false
  end.

(** [s.find(sub)], counted from the head of [s]; [None] stands for -1. *)
Fixpoint find (sub s : str) : option nat :=
  if startswith sub s then Some 0
  else match s with
       | [] => None
       | _ :: s' => option_map S (find sub s')
       end.

(** [sub in s] *)
Definition contains (sub s : str) : bool :=
  match find sub s with Some _ => true | None => false end.

(** [s.split(sep)[0]] and [s.split(sep, 1)[0]]: the text before the first
    occurrence of [sep], all of [s] when there is none.  An empty separator
    is a [ValueError]. *)
Definition split_head (sep s : str) : result str :=
  match sep with
  | [] => Raise ValueError
  | _ => match find sep s with
         | Some i => Ok (firstn i s)
         | None => Ok s
         end
  end.

(** [s[a:b]] for [0 <= a <= b]. *)
Definition slice (s : str) (a b : nat) : str := firstn (b - a) (skipn a s).

(** [c.isspace()], which is also the class [\s] of a [str] pattern. *)
Definition isspace (c : char) : bool :=
  ((9 <=? c) && (c <=? 13) || (28 <=? c) && (c <=? 32)
   || (c =? 133) || (c =? 160) || (c =? 5760)
   || (8192 <=? c) && (c <=? 8202)
   || (c =? 8232) || (c =? 8233) || (c =? 8239) || (c =? 8287)
   || (c =? 12288))%N.

Fixpoint lstrip (s : str) : str :=
  match s with
  | c :: s' => if isspace c then lstrip s' else s
  | [] => []
  end.

Definition rstrip (s : str) : str := rev (lstrip (rev s)).

(** [s.strip()] *)
Definition strip (s : str) : str := rstrip (lstrip s).

(** Truth value of a sequence: [bool(s)]. *)
Definition truthy {A : Type} (s : list A) : bool :=
  match s with [] => false | _ => true end.

(** [s[-1]] of a non-empty sequence. *)
Fixpoint last_item {A : Type} (s : list A) : option A :=
  match s with
  | [] => None
  | [x] => Some x
  | _ :: s' => last_item s'
  end.

End PyStr.

Import PyStr.

(** ** Patterns

    Both patterns are concatenations of literal characters, [\s*], [.*?]
    (with DOTALL) and one capturing group, so a pattern is a list of such
    items.  Matching is the backtracking search of the [re] engine: a greedy
    star first tries to take one more character, a lazy star first tries to
    stop. *)

Module Regex.

Inductive atom : Type :=
| AChar (c : char)     (* a literal character *)
| AAny                 (* [.] under DOTALL *)
| ASpace.              (* [\s] *)

Arguments AChar c%_N.

Inductive item : Type :=
| IOne (a : atom)
| IGreedy (a : atom)   (* [a*] *)
| ILazy (a : atom)     (* [a*?] *)
| IMark.               (* a group boundary: records the position *)

Definition pattern := list item.

Definition accepts (a : atom) (c : char) : bool :=
  match a with
  | AChar x => N.eqb x c
  | AAny => true
  | ASpace => isspace c
  end.

(** [re.escape(s)] followed by compilation: the characters of [s], each
    matched literally. *)
Definition escape (s : str) : pattern := map (fun c => IOne (AChar c)) s.

(** [match_at p pos s]: match [p] against the text whose suffix from
    position [pos] is [s]; the end position and the marks passed. *)
Fixpoint match_at (p : pattern) : nat -> str -> option (nat * list nat) :=
  match p with
  | [] => fun pos _ => Some (pos, [])
  | IMark :: p' => fun pos s =>
      match match_at p' pos s with
      | Some (e, ms) => Some (e, pos :: ms)
      | None => None
      end
  | IOne a :: p' => fun pos s =>
      match s with
      | c :: s' => if accepts a c then match_at p' (S pos) s' else None
      | [] => None
      end
  | ILazy a :: p' =>
      fix lazy (pos : nat) (s : str) {struct s} :=
        match match_at p' pos s with
        | Some r => Some r
        | None =>
            match s with
            | c :: s' => if accepts a c then lazy (S pos) s' else None
            | [] => None
            end
        end
  | IGreedy a :: p' =>
      fix greedy (pos : nat) (s : str) {struct s} :=
        match s with
        | c :: s' =>
            if accepts a c then
              match greedy (S pos) s' with
              | Some r => Some r
              | None => match_at p' pos s
              end
            else match_at p' pos s
        | [] => match_at p' pos s
        end
  end.

(** A match object: [m.start()], [m.end()] and the group boundaries. *)
Record match_obj : Type := MatchObj {
  m_start : nat;
  m_end : nat;
  m_marks : list nat
}.

(** The scan behind [finditer] and [findall]: the leftmost match from the
    current position, then on from its end.  [skip] counts the characters of
    the previous match still to be passed over.  (Neither pattern can match
    the empty string, so the engine's rule for empty matches never
    applies.) *)
Fixpoint scan (p : pattern) (pos skip : nat) (s : str) : list match_obj :=
  match skip with
  | S k =>
      match s with
      | [] => []
      | _ :: s' => scan p (S pos) k s'
      end
  | O =>
      match match_at p pos s with
      | Some (e, ms) =>
          MatchObj pos e ms ::
          match s with
          | [] => []
          | _ :: s' => scan p (S pos) (e - pos - 1) s'
          end
      | None =>
          match s with
          | [] => []
          | _ :: s' => scan p (S pos) 0 s'
          end
      end
  end.

(** [list(p.finditer(text))] *)
Definition finditer (p : pattern) (text : str) : list match_obj :=
  scan p 0 0 text.

(** [m.group(0)] *)
Definition group0 (text : str) (m : match_obj) : str :=
  slice text (m_start m) (m_end m).

(** [m.group(1)] of a pattern with one group. *)
Definition group1 (text : str) (m : match_obj) : str :=
  match m_marks m with
  | a :: b :: _ => slice text a b
  | _ => []
  end.

End Regex.

(** ** The [json] codec

    [json.loads] and [json.dumps(..., ensure_ascii=False)] of the standard
    library, after the C scanner and encoder.  Two things are abstracted:
    a float is kept as the exact decimal [m * 10^e] its literal denotes
    (Python rounds to a double and prints the shortest literal of that
    double), and the interpreter's limits on nesting depth and on the length
    of an integer literal are not modelled. *)

Module Json.

Local Open Scope N_scope.

Inductive json : Type :=
| JNull
| JBool (b : bool)
| JInt (z : Z)
| JFloat (m e : Z)
| JNaN
| JInf (neg : bool)
| JStr (s : str)
| JArr (l : list json)
| JObj (d : list (str * json)).

(** *** Dictionaries: insertion-ordered, a later value replaces an earlier
    one under the same key without moving it. *)

Fixpoint dict_set (k : str) (v : json) (d : list (str * json))
  : list (str * json) :=
  match d with
  | [] => [(k, v)]
  | (k', v') :: d' =>
      if PyStr.eqb k k' then (k, v) :: d' else (k', v') :: dict_set k v d'
  end.

(** [dict(pairs)] *)
Definition dict_of_pairs (pairs : list (str * json)) : list (str * json) :=
  fold_left (fun d kv => dict_set (fst kv) (snd kv) d) pairs [].

Fixpoint dict_get (k : str) (d : list (str * json)) : option json :=
  match d with
  | [] => None
  | (k', v) :: d' => if PyStr.eqb k k' then Some v else dict_get k d'
  end.

(** [obj[key]] with a string key: a [KeyError] on a dict without the key, a
    [TypeError] on a list, a string, a number, a boolean or [None]. *)
Definition getitem (obj : json) (key : str) : result json :=
  match obj with
  | JObj d =>
      match dict_get key d with
      | Some v => Ok v
      | None => Raise KeyError
      end
  | _ => Raise TypeError
  end.

(** *** Decoding *)

Definition is_ws (c : char) : bool :=
  (c =? 32) || (c =? 9) || (c =? 10) || (c =? 13).

Fixpoint skip_ws (s : str) : str :=
  match s with
  | c :: s' => if is_ws c then skip_ws s' else s
  | [] => []
  end.

Definition is_digit (c : char) : bool := (48 <=? c) && (c <=? 57).

Definition hexval (c : char) : option N :=
  if (48 <=? c) && (c <=? 57) then Some (c - 48)
  else if (97 <=? c) && (c <=? 102) then Some (c - 87)
  else if (65 <=? c) && (c <=? 70) then Some (c - 55)
  else None.

Definition hex4 (a b c d : char) : option N :=
  match hexval a, hexval b, hexval c, hexval d with
  | Some x, Some y, Some z, Some w => Some (((x * 16 + y) * 16 + z) * 16 + w)
  | _, _, _, _ => None
  end.

Definition is_high_surrogate (u : N) : bool := (55296 <=? u) && (u <=? 56319).
Definition is_low_surrogate (u : N) : bool := (56320 <=? u) && (u <=? 57343).

(** The second half of a surrogate pair: [u] is the code unit just read,
    the six characters are what follows it. *)
Definition surrogate_pair (u : N) (b v g1 g2 g3 g4 : char) : option char :=
  if is_high_surrogate u && (b =? 92) && (v =? 117) then
    match hex4 g1 g2 g3 g4 with
    | Some u2 =>
        if is_low_surrogate u2
        then Some (65536 + (N.lor (N.shiftl (u - 55296) 10) (u2 - 56320)))
        else None
    | None => None
    end
  else None.

(** The character a one-letter escape stands for. *)
Definition unescape (c : char) : option char :=
  if c =? 34 then Some 34          (* quote *)
  else if c =? 92 then Some 92     (* backslash *)
  else if c =? 47 then Some 47     (* slash *)
  else if c =? 98 then Some 8      (* backspace *)
  else if c =? 102 then Some 12    (* form feed *)
  else if c =? 110 then Some 10    (* newline *)
  else if c =? 114 then Some 13    (* carriage return *)
  else if c =? 116 then Some 9     (* tab *)
  else None.

Definition push (c : char) (r : option (str * str)) : option (str * str) :=
  match r with
  | Some (x, rest) => Some (c :: x, rest)
  | None => None
  end.

(** [scanstring] in strict mode, from just after the opening quote: the
    decoded string and the text after the closing quote. *)
Fixpoint scanstring (s : str) : option (str * str) :=
  match s with
  | [] => None
  | c :: s1 =>
      if c =? 34 then Some ([], s1)
      else if c =? 92 then
        match s1 with
        | [] => None
        | e :: s2 =>
            if e =? 117 then
              match s2 with
              | h1 :: h2 :: h3 :: h4 :: s3 =>
                  match hex4 h1 h2 h3 h4 with
                  | None => None
                  | Some u =>
                      match s3 with
                      | b :: v :: g1 :: g2 :: g3 :: g4 :: s4 =>
                          match surrogate_pair u b v g1 g2 g3 g4 with
                          | Some c' => push c' (scanstring s4)
                          | None => push u (scanstring s3)
                          end
                      | _ => push u (scanstring s3)
                      end
                  end
              | _ => None
              end
            else
              match unescape e with
              | Some c' => push c' (scanstring s2)
              | None => None
              end
        end
      else if c <? 32 then None
      else push c (scanstring s1)
  end.

(** The longest run of decimal digits at the head of [s]. *)
Fixpoint span_digits (s : str) : str * str :=
  match s with
  | c :: s' =>
      if is_digit c
      then let (ds, r) := span_digits s' in (c :: ds, r)
      else ([], s)
  | [] => ([], [])
  end.

Definition digits_value (ds : str) : N :=
  fold_left (fun a d => 10 * a + (d - 48)) ds 0.

(** The integer part: a single zero, or a non-zero digit and any digits. *)
Definition int_part (s : str) : option (str * str) :=
  match s with
  | c :: s' =>
      if c =? 48 then Some ([c], s')
      else if is_digit c
           then let (ds, r) := span_digits s' in Some (c :: ds, r)
           else None
  | [] => None
  end.

(** [(\.[0-9]+)?]: the digits after the point, none when the group does not
    take part. *)
Definition frac_part (s : str) : str * str :=
  match s with
  | c :: s' =>
      if c =? 46 then
        match span_digits s' with
        | ([], _) => ([], s)
        | (ds, r) => (ds, r)
        end
      else ([], s)
  | [] => ([], s)
  end.

(** [([eE][-+]?[0-9]+)?] *)
Definition exp_part (s : str) : option Z * str :=
  match s with
  | c :: s' =>
      if (c =? 101) || (c =? 69) then
        let (neg, s'') :=
          match s' with
          | g :: t => if g =? 45 then (true, t)
                      else if g =? 43 then (false, t) else (false, s')
          | [] => (false, s')
          end in
        match span_digits s'' with
        | ([], _) => (None, s)
        | (ds, r) =>
            let v := Z.of_N (digits_value ds) in
            (Some (if neg then Z.opp v else v), r)
        end
      else (None, s)
  | [] => (None, s)
  end.

(** The number pattern of the scanner: an optional minus sign and the
    integer part, then the optional fraction, then the optional exponent.
    An [int] when neither the fraction nor the exponent takes part, a
    [float] otherwise. *)
Definition match_number (s : str) : option (json * str) :=
  let (neg, s1) :=
    match s with
    | c :: s' => if c =? 45 then (true, s') else (false, s)
    | [] => (false, s)
    end in
  match int_part s1 with
  | None => None
  | Some (ip, s2) =>
      let (fr, s3) := frac_part s2 in
      let (ex, s4) := exp_part s3 in
      let sign (z : Z) := if neg then Z.opp z else z in
      match fr, ex with
      | [], None => Some (JInt (sign (Z.of_N (digits_value ip))), s4)
      | _, _ =>
          let e := match ex with Some x => x | None => 0%Z end in
          Some (JFloat (sign (Z.of_N (digits_value (ip ++ fr))))
                       (e - Z.of_nat (length fr))%Z, s4)
      end
  end.

(** The literals the scanner knows by name. *)
Definition match_constant (s : str) : option (json * str) :=
  if startswith (lit "null") s then Some (JNull, skipn 4 s)
  else if startswith (lit "true") s then Some (JBool true, skipn 4 s)
  else if startswith (lit "false") s then Some (JBool false, skipn 5 s)
  else None.

Definition match_nan_inf (s : str) : option (json * str) :=
  if startswith (lit "NaN") s then Some (JNaN, skipn 3 s)
  else if startswith (lit "Infinity") s then Some (JInf false, skipn 8 s)
  else if startswith (lit "-Infinity") s then Some (JInf true, skipn 9 s)
  else None.

(** [scan_once], [JSONObject] and [JSONArray].  [object_loop] starts just
    after the opening quote of a key, [array_loop] at the first character of
    an element. *)
Fixpoint scan_once (fuel : nat) (s : str) : option (json * str) :=
  match fuel with
  | O => None
  | S fuel =>
      match s with
      | [] => None
      | c :: s' =>
          if c =? 34 then
            match scanstring s' with
            | Some (x, r) => Some (JStr x, r)
            | None => None
            end
          else if c =? 123 then
            match skip_ws s' with
            | c1 :: r1 =>
                if c1 =? 125 then Some (JObj [], r1)
                else if c1 =? 34 then object_loop fuel [] r1
                else None
            | [] => None
            end
          else if c =? 91 then
            match skip_ws s' with
            | c1 :: r1 =>
                if c1 =? 93 then Some (JArr [], r1)
                else array_loop fuel [] (c1 :: r1)
            | [] => None
            end
          else
            match match_constant s with
            | Some r => Some r
            | None =>
                match match_number s with
                | Some r => Some r
                | None => match_nan_inf s
                end
            end
      end
  end

with object_loop (fuel : nat) (pairs : list (str * json)) (s : str)
  : option (json * str) :=
  match fuel with
  | O => None
  | S fuel =>
      match scanstring s with
      | None => None
      | Some (key, r) =>
          match skip_ws r with
          | c :: r1 =>
              if c =? 58 then
                match scan_once fuel (skip_ws r1) with
                | None => None
                | Some (value, r2) =>
                    let pairs' := pairs ++ [(key, value)] in
                    match skip_ws r2 with
                    | c2 :: r3 =>
                        if c2 =? 125 then Some (JObj (dict_of_pairs pairs'), r3)
                        else if c2 =? 44 then
                          match skip_ws r3 with
                          | q :: r4 =>
                              if q =? 34 then object_loop fuel pairs' r4
                              else None
                          | [] => None
                          end
                        else None
                    | [] => None
                    end
                end
              else None
          | [] => None
          end
      end
  end

with array_loop (fuel : nat) (values : list json) (s : str)
  : option (json * str) :=
  match fuel with
  | O => None
  | S fuel =>
      match scan_once fuel s with
      | None => None
      | Some (value, r) =>
          let values' := values ++ [value] in
          match skip_ws r with
          | c :: r1 =>
              if c =? 93 then Some (JArr values', r1)
              else if c =? 44 then array_loop fuel values' (skip_ws r1)
              else None
          | [] => None
          end
      end
  end.

(** [json.loads(s)]: leading whitespace, one value, trailing whitespace and
    nothing more.  Every nested call of the scanner has consumed a
    character since the call two levels up, so twice the length of the text
    is fuel enough. *)
Definition loads (s : str) : result json :=
  match scan_once (2 * length s + 2) (skip_ws s) with
  | Some (v, r) =>
      match skip_ws r with
      | [] => Ok v
      | _ => Raise JSONDecodeError
      end
  | None => Raise JSONDecodeError
  end.

(** *** Encoding *)

Fixpoint decimal_fuel (fuel : nat) (n : N) (acc : str) : str :=
  match fuel with
  | O => acc
  | S fuel =>
      let acc' := (48 + n mod 10) :: acc in
      if n <? 10 then acc' else decimal_fuel fuel (n / 10) acc'
  end.

(** [str(n)] for a natural number. *)
Definition decimal (n : N) : str :=
  decimal_fuel (S (N.to_nat (N.log2 n))) n [].

(** [str(z)] *)
Definition decimal_Z (z : Z) : str :=
  match z with
  | Zneg p => 45 :: decimal (Npos p)
  | _ => decimal (Z.to_N z)
  end.

Definition hexdigit (d : N) : char := if d <? 10 then 48 + d else 87 + d.

(** The replacement table of [encode_basestring]. *)
Definition escape_char (c : char) : str :=
  if c =? 34 then [92; 34]
  else if c =? 92 then [92; 92]
  else if c =? 10 then [92; 110]
  else if c =? 13 then [92; 114]
  else if c =? 9 then [92; 116]
  else if c =? 8 then [92; 98]
  else if c =? 12 then [92; 102]
  else if c <? 32 then [92; 117; 48; 48; hexdigit (c / 16); hexdigit (c mod 16)]
  else [c].

Definition encode_basestring (s : str) : str :=
  34 :: flat_map escape_char s ++ [34].

(** [sep.join(parts)] *)
Fixpoint join (sep : str) (parts : list str) : str :=
  match parts with
  | [] => []
  | [x] => x
  | x :: rest => x ++ sep ++ join sep rest
  end.

(** [json.dumps(v, ensure_ascii=False)] with the default separators. *)
Fixpoint dumps (v : json) : str :=
  match v with
  | JNull => lit "null"
  | JBool true => lit "true"
  | JBool false => lit "false"
  | JInt z => decimal_Z z
  | JFloat m e => decimal_Z m ++ [101] ++ decimal_Z e
  | JNaN => lit "NaN"
  | JInf false => lit "Infinity"
  | JInf true => lit "-Infinity"
  | JStr s => encode_basestring s
  | JArr l => [91] ++ join (lit ", ") (map dumps l) ++ [93]
  | JObj d =>
      [123] ++
      join (lit ", ")
           (map (fun kv => match kv with
                           | (k, x) => encode_basestring k ++ lit ": " ++ dumps x
                           end) d)
      ++ [125]
  end.

End Json.

Import Regex Json.

(** ** Protocol records

    The classes of vllm/entrypoints/openai/protocol.py as the parsers fill
    them: only the fields the two parsers set. *)

Record CallRecord : Type := {
  name : str;
  arguments : str
}.

Record ToolCall : Type := {
  tc_type : str;
  tc_function : CallRecord
}.

Record ExtractedToolCallInformation : Type := {
  tools_called : bool;
  tool_calls : list ToolCall;
  content : option str
}.

Record DeltaToolCall : Type := {
  index : nat;
  dtc_type : str;
  id : str;
  function : CallRecord
}.

Record DeltaMessage : Type := {
  dm_content : option str;
  dm_tool_calls : list DeltaToolCall
}.

(** Modelled from the spec: the validating constructors [FunctionCall] and
    [DeltaFunctionCall] (vllm/entrypoints/openai/protocol.py) are not among
    the sources.  They are the spec's Call Record Builder: from the decoded
    name and the serialized arguments to a call record, failing with
    [MalformedCallError] when the name is not a string or is empty. *)
Definition build_call_record (rawName : json) (args : str)
  : result CallRecord :=
  match rawName with
  | JStr (c :: s) => Ok {| name := c :: s; arguments := args |}
  | _ => Raise MalformedCallError
  end.

Definition FunctionCall := build_call_record.
Definition DeltaFunctionCall := build_call_record.

(** ** The generator of correlation ids

    A computation that may draw ids: the state threaded through a session
    is the number of ids drawn so far. *)

Definition gen (A : Type) : Type := nat -> A * nat.

Definition ret {A : Type} (a : A) : gen A := fun n => (a, n).

Definition gbind {A B : Type} (m : gen A) (k : A -> gen B) : gen B :=
  fun n => let (a, n') := m n in k a n'.

(** Modelled from the spec: [random_tool_call_id]
    (vllm/entrypoints/chat_utils.py) is not among the sources.  It is the
    spec's capability to generate a fresh unique string: the [n]-th call
    returns the [n]-th string of a supply [ids]. *)
Definition random_tool_call_id (ids : nat -> str) : gen str :=
  fun n => (ids n, S n).

(** A streaming session: the steps of one generation, each given the text
    before, the text after and the fragment between; the trace pairs each
    step's current text with what the step returned. *)
Fixpoint session (step : str -> str -> str -> gen (option DeltaMessage))
    (previous_text : str) (deltas : list str)
  : gen (list (str * option DeltaMessage)) :=
  match deltas with
  | [] => ret []
  | delta_text :: rest =>
      let current_text := previous_text ++ delta_text in
      gbind (step previous_text current_text delta_text) (fun out =>
      gbind (session step current_text rest) (fun outs =>
      ret ((current_text, out) :: outs)))
  end.

(** ** deepseek_r1.py *)

Module DeepSeekR1ToolParser.

(** The markers of the chat template; U+FF5C is the fullwidth vertical line
    and U+2581 the lower one eighth block. *)
Definition calls_begin : str :=
  [60; 65372]%N ++ lit "tool" ++ [9601]%N ++ lit "call" ++ [9601]%N
  ++ lit "begin" ++ [65372; 62]%N.
Definition calls_end : str :=
  [60; 65372]%N ++ lit "tool" ++ [9601]%N ++ lit "call" ++ [9601]%N
  ++ lit "end" ++ [65372; 62]%N.
Definition call_begin : str := calls_begin.
Definition call_end : str := calls_end.

(** [re.escape(call_begin) + "(.*?)" + re.escape(call_end)], DOTALL *)
Definition tool_call_block_re : pattern :=
  escape call_begin ++ [IMark; ILazy AAny; IMark] ++ escape call_end.

(** [tool_call_block_re.findall(text)]: with one group, the group. *)
Definition findall (text : str) : list str :=
  map (group1 text) (finditer tool_call_block_re text).

(** The body of the inner [try] of [extract_tool_calls]. *)
Definition parse_call (json_str : str) : result ToolCall :=
  call_obj <- loads json_str ;;
  n <- getitem call_obj (lit "name") ;;
  p <- getitem call_obj (lit "parameters") ;;
  f <- FunctionCall n (dumps p) ;;
  Ok {| tc_type := lit "function"; tc_function := f |}.

(** One turn of the loop over the blocks. *)
Definition loop_body (calls : list ToolCall) (match_ : str) : list ToolCall :=
  let json_str := strip match_ in
  if negb (truthy json_str) then calls
  else match parse_call json_str with
       | Ok tc => calls ++ [tc]
       | Raise _ => calls
       end.

Definition fallback (model_output : str) : ExtractedToolCallInformation :=
  {| tools_called := false; tool_calls := []; content := Some model_output |}.

(** The body of the outer [try]. *)
Definition extract_body (model_output : str)
  : result ExtractedToolCallInformation :=
  let calls := fold_left loop_body (findall model_output) [] in
  c <- split_head calls_begin model_output ;;
  let c := strip c in
  Ok {| tools_called := truthy calls;
        tool_calls := calls;
        content := if truthy c then Some c else None |}.

Definition extract_tool_calls (model_output : str)
  : ExtractedToolCallInformation :=
  if negb (contains calls_begin model_output) then fallback model_output
  else match extract_body model_output with
       | Ok r => r
       | Raise _ => fallback model_output
       end.

Section Streaming.

Variable ids : nat -> str.

(** What follows [json.loads] in the inner [try] of the streaming step; the
    keyword arguments are evaluated in order, so the id is drawn before the
    name is looked up. *)
Definition delta_call (call_obj : json) : gen (option DeltaMessage) :=
  gbind (random_tool_call_id ids) (fun i =>
  ret match (n <- getitem call_obj (lit "name") ;;
             p <- getitem call_obj (lit "parameters") ;;
             DeltaFunctionCall n (dumps p)) with
      | Ok f =>
          Some {| dm_content := None;
                  dm_tool_calls :=
                    [{| index := 0; dtc_type := lit "function"; id := i;
                        function := f |}] |}
      | Raise _ => None
      end).

(** The token-id sequences and the request are not read.  Nothing outside
    the inner [try] can raise, so the outer handler has no case. *)
Definition extract_tool_calls_streaming
    (previous_text current_text delta_text : str)
  : gen (option DeltaMessage) :=
  let matches := finditer tool_call_block_re current_text in
  match last_item matches with
  | None => ret (Some {| dm_content := Some delta_text; dm_tool_calls := [] |})
  | Some last_match =>
      let json_str := strip (group1 current_text last_match) in
      if negb (truthy json_str) then ret None
      else match loads json_str with
           | Ok call_obj => delta_call call_obj
           | Raise _ => ret None
           end
  end.

End Streaming.

End DeepSeekR1ToolParser.

(** ** phi4_reasoning_tool_parser.py *)

Module Phi4ReasoningToolParser.

Definition ws : item := IGreedy ASpace.

(** The pattern [TOOL_CALL_REGEX], DOTALL: an opening brace, the key
    ["name"], a colon, a quoted value taken lazily, a comma, the key
    ["arguments"], a colon, anything taken lazily, a closing brace, with
    [\s*] between the tokens. *)
Definition TOOL_CALL_REGEX : pattern :=
  [IOne (AChar 123); ws] ++ escape ([34] ++ lit "name" ++ [34])%N
  ++ [ws; IOne (AChar 58); ws; IOne (AChar 34); ILazy AAny; IOne (AChar 34);
      ws; IOne (AChar 44); ws]
  ++ escape ([34] ++ lit "arguments" ++ [34])%N
  ++ [ws; IOne (AChar 58); ws; ILazy AAny; IOne (AChar 125)].

(** [TOOL_CALL_REGEX.findall(text)]: without groups, the whole match. *)
Definition findall (text : str) : list str :=
  map (group0 text) (finditer TOOL_CALL_REGEX text).

(** The body of the [try] of [extract_tool_calls]. *)
Definition parse_call (match_ : str) : result ToolCall :=
  call <- loads match_ ;;
  n <- getitem call (lit "name") ;;
  a <- getitem call (lit "arguments") ;;
  f <- FunctionCall n (dumps a) ;;
  Ok {| tc_type := lit "function"; tc_function := f |}.

Definition loop_body (calls : list ToolCall) (match_ : str) : list ToolCall :=
  match parse_call match_ with
  | Ok tc => calls ++ [tc]
  | Raise _ => calls
  end.

(** Nothing guards the split, so its [ValueError] would leave the
    function. *)
Definition extract_tool_calls (model_output : str)
  : result ExtractedToolCallInformation :=
  let matches := findall model_output in
  let calls := fold_left loop_body matches [] in
  c <- match matches with
       | m0 :: _ => h <- split_head m0 model_output ;; Ok (strip h)
       | [] => Ok model_output
       end ;;
  Ok {| tools_called := truthy calls;
        tool_calls := calls;
        content := Some (if truthy calls then c else model_output) |}.

(** The token-id sequences and the request are not read. *)
Definition extract_tool_calls_streaming
    (previous_text current_text delta_text : str) : option DeltaMessage :=
  let matches := findall current_text in
  match last_item matches with
  | None => Some {| dm_content := Some delta_text; dm_tool_calls := [] |}
  | Some last_match =>
      match (call <- loads last_match ;;
             n <- getitem call (lit "name") ;;
             a <- getitem call (lit "arguments") ;;
             DeltaFunctionCall n (dumps a)) with
      | Ok f =>
          Some {| dm_content := None;
                  dm_tool_calls :=
                    [{| index := length matches - 1;
                        dtc_type := lit "function";
                        id := lit "phi4_tool_call_stream";
                        function := f |}] |}
      | Raise _ => None
      end
  end.

(** The step as a step of a session: it draws no id. *)
Definition step (previous_text current_text delta_text : str)
  : gen (option DeltaMessage) :=
  ret (extract_tool_calls_streaming previous_text current_text delta_text).

End Phi4ReasoningToolParser.

(** * Vocabulary of the statements *)

Module DS := DeepSeekR1ToolParser.
Module Phi4 := Phi4ReasoningToolParser.

Definition to_option {A : Type} (r : result A) : option A :=
  match r with
  | Ok a => Some a
  | Raise _ => None
  end.

(** The elements of [l] on which [f] succeeds, in the order of [l]. *)
Fixpoint keep_ok {A B : Type} (f : A -> option B) (l : list A) : list B :=
  match l with
  | [] => []
  | x :: l' =>
      match f x with
      | Some y => y :: keep_ok f l'
      | None => keep_ok f l'
      end
  end.

(** The call a candidate span stands for, if it decodes. *)
Definition ds_span_call (span : str) : option ToolCall :=
  to_option (DS.parse_call (strip span)).

Definition phi4_span_call (span : str) : option ToolCall :=
  to_option (Phi4.parse_call span).










(** [ds] is the decimal numeral of [n]: digits only, no leading zero. *)
Definition numeral (ds : str) (n : N) : Prop :=
  forallb is_digit ds = true /\
  digits_value ds = n /\
  exists c r, ds = c :: r /\ (c = 48%N -> r = []).

(** A tag-delimited block around [body]. *)
Definition ds_block (body : str) : str := DS.call_begin ++ body ++ DS.call_end.

(** Sample model outputs.  JSON samples are written with an apostrophe
    where the text has a double quote. *)
Definition jlit (s : string) : str :=
  map (fun c => if N.eqb c 39 then 34%N else c) (lit s).

Definition call_f : str := jlit "{'name': 'f', 'arguments': 1}".
Definition call_g : str := jlit "{'name': 'g', 'arguments': 2}".
Definition call_broken : str := jlit "{'name': 'x', 'arguments': }".
Definition call_nested : str := jlit "{'name': 'f', 'arguments': {'a': 1}}".
Definition params_f : str := jlit "{'name': 'f', 'parameters': {'a': 1}}".
Definition params_g : str := jlit "{'name': 'g', 'parameters': []}".

Definition record_f : CallRecord :=
  {| name := lit "f"; arguments := lit "1" |}.
Definition record_g : CallRecord :=
  {| name := lit "g"; arguments := lit "2" |}.
Definition record_pf : CallRecord :=
  {| name := lit "f"; arguments := jlit "{'a': 1}" |}.
Definition record_pg : CallRecord :=
  {| name := lit "g"; arguments := lit "[]" |}.

Definition function_call (r : CallRecord) : ToolCall :=
  {| tc_type := lit "function"; tc_function := r |}.

(** [None] for a text that is empty once trimmed, the trimmed text
    otherwise. *)
Definition trimmed_or_none (s : str) : option str :=
  let c := strip s in if truthy c then Some c else None.

(** The text before a match. *)
Definition text_before (text : str) (m : match_obj) : str :=
  firstn (m_start m) text.

(** ** Streaming vocabulary *)

(** A streaming extractor: its pattern, the part of a match that is the
    candidate span, how a span decodes, and its step. *)
Record extractor : Type := {
  x_pattern : pattern;
  x_group : str -> match_obj -> str;
  x_decode : str -> option CallRecord;
  x_step : str -> str -> str -> gen (option DeltaMessage)
}.

(** The candidate spans of a text, left to right. *)
Definition spans (X : extractor) (text : str) : list str :=
  map (x_group X text) (finditer (x_pattern X) text).

Definition ds_extractor (ids : nat -> str) : extractor :=
  {| x_pattern := DS.tool_call_block_re;
     x_group := group1;
     x_decode := fun span => option_map tc_function (ds_span_call span);
     x_step := DS.extract_tool_calls_streaming ids |}.

Definition phi4_extractor : extractor :=
  {| x_pattern := Phi4.TOOL_CALL_REGEX;
     x_group := group0;
     x_decode := fun span => option_map tc_function (phi4_span_call span);
     x_step := Phi4.step |}.

(** The two kinds of event. *)
Definition content_event (fragment : str) : option DeltaMessage :=
  Some {| dm_content := Some fragment; dm_tool_calls := [] |}.

Definition call_event (tc : DeltaToolCall) : option DeltaMessage :=
  Some {| dm_content := None; dm_tool_calls := [tc] |}.

(** The call events in what a step returned. *)
Definition call_events (out : option DeltaMessage) : list DeltaToolCall :=
  match out with
  | Some m => dm_tool_calls m
  | None => []
  end.

(** The trace of the session that receives [deltas], from the empty text
    and generator state [n]. *)
Definition trace (X : extractor) (deltas : list str) (n : nat)
  : list (str * option DeltaMessage) :=
  fst (session (x_step X) [] deltas n).

(** The step with current text [cur] emits the call of span number [k]:
    it returns a call event, and span [k] is the last of [cur]. *)
Definition emits_span (X : extractor) (cur : str) (out : option DeltaMessage)
    (k : nat) : Prop :=
  call_events out <> [] /\ length (spans X cur) = S k.

(** No call is emitted at two steps of the trace. *)
Definition emitted_once (X : extractor)
    (tr : list (str * option DeltaMessage)) : Prop :=
  forall i j ci oi cj oj k,
    i < j ->
    nth_error tr i = Some (ci, oi) -> nth_error tr j = Some (cj, oj) ->
    emits_span X ci oi k -> ~ emits_span X cj oj k.

Definition one_call_per_step (tr : list (str * option DeltaMessage)) : Prop :=
  Forall (fun co => length (call_events (snd co)) <= 1) tr.

(** The index of an emitted call is the ordinal of its span. *)
Definition index_is_ordinal (X : extractor) : Prop :=
  forall previous_text current_text delta_text n span r,
    last_item (spans X current_text) = Some span ->
    x_decode X span = Some r ->
    exists tc,
      fst (x_step X previous_text current_text delta_text n) = call_event tc /\
      function tc = r /\
      index tc = length (spans X current_text) - 1.

(** The fragment lies after every candidate block of the current text. *)
Definition free_text (X : extractor) (previous_text delta_text : str) : Prop :=
  forall m,
    In m (finditer (x_pattern X) (previous_text ++ delta_text)) ->
    m_end m <= length previous_text.

(** Free text is passed through as content. *)
Definition passes_free_text (X : extractor) : Prop :=
  forall previous_text delta_text n,
    free_text X previous_text delta_text ->
    fst (x_step X previous_text (previous_text ++ delta_text) delta_text n)
    = content_event delta_text.

(** What a step returns is decided by the last candidate span of the
    current text: content when there is none, the call of that span when it
    decodes, nothing otherwise. *)
Definition step_by_last_span (X : extractor) : Prop :=
  forall previous_text current_text delta_text n,
    match last_item (spans X current_text) with
    | None =>
        fst (x_step X previous_text current_text delta_text n)
        = content_event delta_text
    | Some span =>
        match x_decode X span with
        | Some r =>
            exists tc,
              fst (x_step X previous_text current_text delta_text n)
              = call_event tc /\ function tc = r
        | None =>
            fst (x_step X previous_text current_text delta_text n) = None
        end
    end.

(** At most one call event per step; an emitted call is the call of the
    last candidate span, and it is emitted again at every later step whose
    text has the same last span. *)
Definition reemits_last_span (X : extractor) : Prop :=
  forall deltas n,
    one_call_per_step (trace X deltas n) /\
    forall i ci oi tc,
      nth_error (trace X deltas n) i = Some (ci, oi) ->
      call_events oi = [tc] ->
      (exists span, last_item (spans X ci) = Some span /\
                    x_decode X span = Some (function tc)) /\
      forall j cj oj,
        i < j ->
        nth_error (trace X deltas n) j = Some (cj, oj) ->
        last_item (spans X cj) = last_item (spans X ci) ->
        exists tc', call_events oj = [tc'] /\ function tc' = function tc.

(** The index of an emitted call is always zero. *)
Definition index_is_zero (X : extractor) : Prop :=
  forall previous_text current_text delta_text n span r,
    last_item (spans X current_text) = Some span ->
    x_decode X span = Some r ->
    exists tc,
      fst (x_step X previous_text current_text delta_text n) = call_event tc /\
      function tc = r /\
      index tc = 0.

(** Content only while the text has no candidate span. *)
Definition content_until_first_span (X : extractor) : Prop :=
  forall previous_text current_text delta_text n,
    (spans X current_text = [] ->
     fst (x_step X previous_text current_text delta_text n)
     = content_event delta_text) /\
    (spans X current_text <> [] ->
     fst (x_step X previous_text current_text delta_text n) = None \/
     exists tc,
       fst (x_step X previous_text current_text delta_text n) = call_event tc).

(** The event of the Phi-4 step for the call [r] of span number [k]. *)
Definition phi4_event (k : nat) (r : CallRecord) : DeltaToolCall :=
  {| index := k; dtc_type := lit "function";
     id := lit "phi4_tool_call_stream"; function := r |}.

(** The ids of the call events of a trace, in order of emission. *)
Definition event_ids (tr : list (str * option DeltaMessage)) : list str :=
  flat_map (fun co => map id (call_events (snd co))) tr.

(** A supply of ids for the samples: the decimal numerals. *)
Definition sample_ids (n : nat) : str := decimal (N.of_nat n).

(** ** Vocabulary of the further properties *)

(** Neither the first nor the last character is white space. *)
Definition no_outer_space (s : str) : Prop :=
  (forall c s', s = c :: s' -> isspace c = false) /\
  (forall c s', s = s' ++ [c] -> isspace c = false).


(** A stretch of a pattern without choice: literal characters, and stars
    that take all they can.  [eat D s] is the number of characters of [s]
    the stretch takes, when it matches at the head of [s]. *)
Fixpoint eat (D : pattern) : str -> option nat :=
  match D with
  | [] => fun _ => Some 0
  | IOne a :: D' => fun s =>
      match s with
      | c :: s' => if accepts a c then option_map S (eat D' s') else None
      | [] => None
      end
  | IGreedy a :: D' =>
      fix run (s : str) {struct s} :=
        match s with
        | c :: s' => if accepts a c then option_map S (run s') else eat D' s
        | [] => eat D' s
        end
  | _ => fun _ => None
  end.

(** A test that no character is accepted by both atoms; it covers the
    pairs of atoms the two patterns have. *)
Definition disjoint (a b : atom) : bool :=
  match a, b with
  | ASpace, AChar x => negb (isspace x)
  | AChar x, AChar y => negb (N.eqb x y)
  | _, _ => false
  end.

(** Every star of the stretch is followed by a single atom that accepts
    none of the star's characters, so giving back a character never
    helps. *)
Fixpoint crisp (D : pattern) : bool :=
  match D with
  | [] => true
  | IOne _ :: D' => crisp D'
  | IGreedy a :: D' =>
      match D' with
      | IOne b :: _ => disjoint a b
      | _ => false
      end && crisp D'
  | _ => false
  end.

(** Some atom of the pattern accepts the character. *)
Definition touches (D : pattern) (c : char) : bool :=
  existsb (fun it => match it with
                     | IOne a | IGreedy a | ILazy a => accepts a c
                     | IMark => false
                     end) D.

(** The three stretches of the Phi-4 pattern: up to the opening quote of
    the name, from its closing quote to the colon after the key, and the
    rest. *)
Definition phi4_head : pattern :=
  [IOne (AChar 123); Phi4.ws] ++ escape ([34] ++ lit "name" ++ [34])%N
  ++ [Phi4.ws; IOne (AChar 58); Phi4.ws; IOne (AChar 34)].

Definition phi4_mid : pattern :=
  [IOne (AChar 34); Phi4.ws; IOne (AChar 44); Phi4.ws]
  ++ escape ([34] ++ lit "arguments" ++ [34])%N
  ++ [Phi4.ws; IOne (AChar 58)].

Definition phi4_last : pattern :=
  [Phi4.ws; ILazy AAny; IOne (AChar 125)].

(** A pattern whose matches outlive more text: a match stays what it is,
    and where more text makes a match, the text so far has no match from
    there on. *)
Definition steady (p : pattern) : Prop :=
  (forall pos s t r,
     match_at p pos s = Some r -> match_at p pos (s ++ t) = Some r) /\
  (forall pos s t,
     match_at p pos s = None -> match_at p pos (s ++ t) <> None ->
     forall k, k <= length s -> match_at p (pos + k) (skipn k s) = None).

(** * Properties *)

Unset Implicit Arguments.

(** ** Strings *)

Section StrFacts.

Lemma find_startswith (sub : str) :
  forall s k,
    startswith sub (skipn k s) = true ->
    exists i, find sub s = Some i /\ i <= k.
Proof.
  induction s as [|c s' IH]; intros k H.
  - rewrite skipn_nil in H. exists 0. simpl. rewrite H. split; [auto|lia].
  - simpl. destruct (startswith sub (c :: s')) eqn:E.
    + exists 0. split; [reflexivity|lia].
    + destruct k as [|k]; [simpl in H; congruence|].
      simpl in H. destruct (IH k H) as (i & Hi & Hle).
      exists (S i). rewrite Hi. split; [reflexivity|lia].
Qed.

Lemma startswith_firstn (n : nat) :
  forall s, startswith (firstn n s) s = true.
Proof.
  induction n as [|n IH]; intros [|c s]; simpl; try reflexivity.
  now rewrite N.eqb_refl, IH.
Qed.

Lemma find_spec (sub : str) :
  forall s i,
    find sub s = Some i ->
    i <= length s /\ startswith sub (skipn i s) = true /\
    forall j, j < i -> startswith sub (skipn j s) = false.
Proof.
  induction s as [|c s' IH]; intros i H; simpl in H.
  - destruct (startswith sub []) eqn:E; [|discriminate].
    inversion H; subst. simpl. repeat split; auto; intros; lia.
  - destruct (startswith sub (c :: s')) eqn:E.
    + inversion H; subst. simpl. repeat split; auto; intros; lia.
    + destruct (find sub s') as [i'|] eqn:F; [|discriminate].
      inversion H; subst. destruct (IH i' eq_refl) as (H1 & H2 & H3).
      simpl. repeat split; auto; try lia.
      intros [|j] Hj; [exact E|]. simpl. apply H3. lia.
Qed.

End StrFacts.

(** ** The pattern engine *)

Section RegexFacts.

Lemma match_at_lazy (a : atom) (p : pattern) (pos : nat) (s : str) :
  match_at (ILazy a :: p) pos s =
  match match_at p pos s with
  | Some r => Some r
  | None =>
      match s with
      | c :: s' =>
          if accepts a c then match_at (ILazy a :: p) (S pos) s' else None
      | [] => None
      end
  end.
Proof. destruct s; reflexivity. Qed.

Lemma match_at_greedy (a : atom) (p : pattern) (pos : nat) (s : str) :
  match_at (IGreedy a :: p) pos s =
  match s with
  | c :: s' =>
      if accepts a c then
        match match_at (IGreedy a :: p) (S pos) s' with
        | Some r => Some r
        | None => match_at p pos s
        end
      else match_at p pos s
  | [] => match_at p pos s
  end.
Proof. destruct s; reflexivity. Qed.

Lemma match_at_mark (p : pattern) (pos : nat) (s : str) :
  match_at (IMark :: p) pos s =
  match match_at p pos s with
  | Some (e, ms) => Some (e, pos :: ms)
  | None => None
  end.
Proof. reflexivity. Qed.

(** A match ends inside the text, at or after its start. *)
Lemma match_at_bounds (p : pattern) :
  forall pos s e ms,
    match_at p pos s = Some (e, ms) -> pos <= e <= pos + length s.
Proof.
  induction p as [|it p IH]; intros pos s e ms H.
  - simpl in H. inversion H; subst. lia.
  - destruct it as [a|a|a|].
    + simpl in H. destruct s as [|c s']; [discriminate|].
      destruct (accepts a c); [|discriminate].
      apply IH in H. simpl. lia.
    + revert pos H. induction s as [|c s' IHs]; intros pos H;
        rewrite match_at_greedy in H.
      * apply IH in H. exact H.
      * destruct (accepts a c).
        -- destruct (match_at (IGreedy a :: p) (S pos) s') as [[e' ms']|] eqn:E.
           ++ inversion H; subst. apply IHs in E. simpl. lia.
           ++ apply IH in H. exact H.
        -- apply IH in H. exact H.
    + revert pos H. induction s as [|c s' IHs]; intros pos H;
        rewrite match_at_lazy in H.
      * destruct (match_at p pos []) as [[e' ms']|] eqn:E; [|discriminate].
        inversion H; subst. apply IH in E. exact E.
      * destruct (match_at p pos (c :: s')) as [[e' ms']|] eqn:E.
        -- inversion H; subst. apply IH in E. exact E.
        -- destruct (accepts a c); [|discriminate].
           apply IHs in H. simpl. lia.
    + simpl in H. destruct (match_at p pos s) as [[e' ms']|] eqn:E;
        [|discriminate].
      inversion H; subst. apply IH in E. exact E.
Qed.

(** A pattern that begins with a literal text matches only where the text
    begins with it. *)
Lemma match_at_escape (l : str) (p : pattern) :
  forall pos s r,
    match_at (escape l ++ p) pos s = Some r ->
    startswith l s = true /\
    match_at p (pos + length l) (skipn (length l) s) = Some r.
Proof.
  induction l as [|x l IH]; intros pos s r H.
  - simpl in *. rewrite Nat.add_0_r. auto.
  - simpl in H. destruct s as [|c s']; [discriminate|].
    destruct (N.eqb x c) eqn:E; [|discriminate].
    apply IH in H. destruct H as [H1 H2].
    simpl. rewrite E, H1. split; [reflexivity|].
    replace (pos + S (length l)) with (S pos + length l) by lia. exact H2.
Qed.

(** Every match reported by the scan is a match of the pattern at its start
    position, inside the text scanned. *)
Lemma scan_In (p : pattern) :
  forall s pos skip m,
    In m (scan p pos skip s) ->
    exists k, m_start m = pos + k /\ k <= length s /\
              match_at p (pos + k) (skipn k s) = Some (m_end m, m_marks m).
Proof.
  induction s as [|c s' IH]; intros pos skip m H.
  - destruct skip; simpl in H; [|contradiction].
    destruct (match_at p pos []) as [[e ms]|] eqn:E; [|contradiction].
    destruct H as [<-|[]]. exists 0. simpl. rewrite Nat.add_0_r. auto.
  - assert (Hrec : forall sk, In m (scan p (S pos) sk s') ->
        exists k, m_start m = pos + k /\ k <= length (c :: s') /\
          match_at p (pos + k) (skipn k (c :: s')) = Some (m_end m, m_marks m)).
    { intros sk Hin. apply IH in Hin. destruct Hin as (k & H1 & H2 & H3).
      exists (S k). simpl. replace (pos + S k) with (S pos + k) by lia.
      repeat split; auto; lia. }
    destruct skip; simpl in H.
    + destruct (match_at p pos (c :: s')) as [[e ms]|] eqn:E.
      * destruct H as [<-|H]; [|eauto].
        exists 0. simpl. rewrite Nat.add_0_r. repeat split; auto; lia.
      * eauto.
    + eauto.
Qed.

Lemma finditer_In (p : pattern) (text : str) (m : match_obj) :
  In m (finditer p text) ->
  m_start m <= length text /\
  match_at p (m_start m) (skipn (m_start m) text) = Some (m_end m, m_marks m).
Proof.
  intros H. apply scan_In in H. destruct H as (k & H1 & H2 & H3).
  simpl in H1, H3. subst k. auto.
Qed.

(** The scan reports nothing exactly when the pattern matches nowhere. *)
Lemma scan_nil (p : pattern) :
  forall s pos,
    scan p pos 0 s = [] ->
    forall k, k <= length s -> match_at p (pos + k) (skipn k s) = None.
Proof.
  induction s as [|c s' IH]; intros pos H k Hk.
  - simpl in *. assert (k = 0) by lia. subst. rewrite Nat.add_0_r. simpl.
    destruct (match_at p pos []) as [[e ms]|]; [discriminate|reflexivity].
  - simpl in H.
    destruct (match_at p pos (c :: s')) as [[e ms]|] eqn:E; [discriminate|].
    destruct k as [|k].
    + simpl. rewrite Nat.add_0_r. exact E.
    + simpl. replace (pos + S k) with (S pos + k) by lia.
      apply IH; [exact H|simpl in Hk; lia].
Qed.

(** The first match reported is the leftmost one. *)
Lemma scan_first (p : pattern) :
  forall s pos m rest,
    scan p pos 0 s = m :: rest ->
    exists k, m_start m = pos + k /\ k <= length s /\
      match_at p (pos + k) (skipn k s) = Some (m_end m, m_marks m) /\
      forall j, j < k -> match_at p (pos + j) (skipn j s) = None.
Proof.
  induction s as [|c s' IH]; intros pos m rest H.
  - simpl in H. destruct (match_at p pos []) as [[e ms]|] eqn:E;
      [|discriminate].
    inversion H; subst. exists 0. simpl. rewrite Nat.add_0_r.
    repeat split; auto; intros; lia.
  - simpl in H.
    destruct (match_at p pos (c :: s')) as [[e ms]|] eqn:E.
    + inversion H; subst. exists 0. simpl. rewrite Nat.add_0_r.
      repeat split; auto; intros; lia.
    + apply IH in H. destruct H as (k & H1 & H2 & H3 & H4).
      exists (S k). simpl. replace (pos + S k) with (S pos + k) by lia.
      repeat split; auto; try lia.
      intros [|j] Hj.
      * simpl. rewrite Nat.add_0_r. exact E.
      * simpl. replace (pos + S j) with (S pos + j) by lia.
        apply H4. lia.
Qed.

(** Whether a match exists depends only on the text matched: if the
    pattern matches at the head of [s], it matches at the head of every
    text that begins with the matched part of [s]. *)
Lemma greedy_fallback (a : atom) (p : pattern) (pos : nat) (s : str) :
  match_at p pos s <> None -> match_at (IGreedy a :: p) pos s <> None.
Proof.
  intros H. rewrite match_at_greedy. destruct s as [|c s']; [exact H|].
  destruct (accepts a c); [|exact H].
  destruct (match_at (IGreedy a :: p) (S pos) s'); [discriminate|exact H].
Qed.

Lemma startswith_cons_firstn (c : N) (s0 s' : str) (n : nat) :
  startswith (firstn (S n) (c :: s0)) s' = true ->
  exists s0', s' = c :: s0' /\ startswith (firstn n s0) s0' = true.
Proof.
  simpl. destruct s' as [|c' s0']; [discriminate|].
  intros H. apply andb_prop in H. destruct H as [H1 H2].
  apply N.eqb_eq in H1. subst c'. eauto.
Qed.

Lemma match_at_stable (p : pattern) :
  forall pos s e ms,
    match_at p pos s = Some (e, ms) ->
    forall pos' s',
      startswith (firstn (e - pos) s) s' = true ->
      match_at p pos' s' <> None.
Proof.
  induction p as [|it p IH]; intros pos s e ms H pos' s' Hs.
  - discriminate.
  - destruct it as [a|a|a|].
    + simpl in H. destruct s as [|c s0]; [discriminate|].
      destruct (accepts a c) eqn:A; [|discriminate].
      pose proof (match_at_bounds p _ _ _ _ H) as B.
      replace (e - pos) with (S (e - S pos)) in Hs by lia.
      apply startswith_cons_firstn in Hs. destruct Hs as (s0' & -> & Hs).
      simpl. rewrite A. exact (IH _ _ _ _ H _ _ Hs).
    + revert pos pos' s' H Hs.
      induction s as [|c s0 IHs]; intros pos pos' s' H Hs;
        rewrite match_at_greedy in H.
      * apply greedy_fallback. exact (IH _ _ _ _ H _ _ Hs).
      * destruct (accepts a c) eqn:A;
          [|apply greedy_fallback; exact (IH _ _ _ _ H _ _ Hs)].
        destruct (match_at (IGreedy a :: p) (S pos) s0) as [[e' ms']|] eqn:G;
          [|apply greedy_fallback; exact (IH _ _ _ _ H _ _ Hs)].
        inversion H; subst e' ms'.
        pose proof (match_at_bounds _ _ _ _ _ G) as B.
        replace (e - pos) with (S (e - S pos)) in Hs by lia.
        apply startswith_cons_firstn in Hs. destruct Hs as (s0' & -> & Hs).
        rewrite match_at_greedy, A.
        pose proof (IHs _ (S pos') _ G Hs) as R.
        destruct (match_at (IGreedy a :: p) (S pos') s0'); [discriminate|].
        congruence.
    + revert pos pos' s' H Hs.
      induction s as [|c s0 IHs]; intros pos pos' s' H Hs;
        rewrite match_at_lazy in H; rewrite match_at_lazy.
      * destruct (match_at p pos []) as [[e' ms']|] eqn:M; [|discriminate].
        inversion H; subst e' ms'.
        pose proof (IH _ _ _ _ M pos' _ Hs) as R.
        destruct (match_at p pos' s'); [discriminate|congruence].
      * destruct (match_at p pos (c :: s0)) as [[e' ms']|] eqn:M.
        -- inversion H; subst e' ms'.
           pose proof (IH _ _ _ _ M pos' _ Hs) as R.
           destruct (match_at p pos' s'); [discriminate|congruence].
        -- destruct (accepts a c) eqn:A; [|discriminate].
           pose proof (match_at_bounds _ _ _ _ _ H) as B.
           replace (e - pos) with (S (e - S pos)) in Hs by lia.
           apply startswith_cons_firstn in Hs.
           destruct Hs as (s0' & -> & Hs).
           destruct (match_at p pos' (c :: s0')); [discriminate|].
           rewrite A. exact (IHs _ _ _ H Hs).
    + simpl in H. destruct (match_at p pos s) as [[e' ms']|] eqn:M;
        [|discriminate].
      inversion H; subst. simpl.
      pose proof (IH _ _ _ _ M pos' _ Hs) as R.
      destruct (match_at p pos' s') as [[? ?]|]; [discriminate|congruence].
Qed.

(** A literal text at the head of a pattern. *)
Lemma match_at_escape_eq (l : str) (p : pattern) :
  forall pos s,
    match_at (escape l ++ p) pos s =
    if startswith l s
    then match_at p (pos + length l) (skipn (length l) s)
    else None.
Proof.
  induction l as [|x l IH]; intros pos s.
  - simpl. now rewrite Nat.add_0_r.
  - simpl. destruct s as [|c s']; [reflexivity|].
    destruct (N.eqb x c); [|reflexivity]. simpl. rewrite IH.
    now replace (S pos + length l) with (pos + S (length l)) by lia.
Qed.

(** Anything, lazily, up to a literal text: the first occurrence of the
    text. *)
Lemma match_at_lazy_any (l : str) :
  forall s pos,
    match_at (ILazy AAny :: IMark :: escape l) pos s =
    match find l s with
    | Some i => Some (pos + i + length l, [pos + i])
    | None => None
    end.
Proof.
  assert (M : forall pos s,
            match_at (IMark :: escape l) pos s =
            if startswith l s then Some (pos + length l, [pos]) else None).
  { intros pos s. cbn [match_at].
    rewrite <- (app_nil_r (escape l)), match_at_escape_eq.
    destruct (startswith l s); reflexivity. }
  induction s as [|c s' IH]; intros pos;
    rewrite match_at_lazy, M; cbn [find].
  - destruct (startswith l []); [|reflexivity].
    now rewrite Nat.add_0_r.
  - destruct (startswith l (c :: s')); [now rewrite Nat.add_0_r|].
    cbn [accepts]. rewrite IH. destruct (find l s') as [i|]; [|reflexivity].
    simpl. do 2 f_equal; [|f_equal]; lia.
Qed.

(** The first match begins at the first occurrence of its own text. *)
Lemma first_match_find (p : pattern) (text : str) (m : match_obj)
    (ms : list match_obj) :
  finditer p text = m :: ms ->
  find (group0 text m) text = Some (m_start m).
Proof.
  intros H. apply scan_first in H.
  destruct H as (k & Hk & _ & Hm & Hleft). simpl in Hk, Hm, Hleft.
  subst k. unfold group0, slice.
  destruct (find_startswith
              (firstn (m_end m - m_start m) (skipn (m_start m) text))
              text (m_start m) (startswith_firstn _ _)) as (i & Hi & Hle).
  rewrite Hi. f_equal.
  destruct (Nat.eq_dec i (m_start m)) as [E|E]; [exact E|exfalso].
  apply find_spec in Hi. destruct Hi as (_ & Hs & _).
  apply (match_at_stable p _ _ _ _ Hm i (skipn i text) Hs).
  apply Hleft. lia.
Qed.

End RegexFacts.

(** ** The extractors on a finished text *)

Section ExtractFacts.

Lemma split_head_nonempty (sep s : str) :
  sep <> [] ->
  split_head sep s =
  Ok match find sep s with Some i => firstn i s | None => s end.
Proof.
  intros H. unfold split_head. destruct sep; [congruence|].
  destruct (find _ s); reflexivity.
Qed.

Lemma calls_begin_nonempty : DS.calls_begin <> [].
Proof. discriminate. Qed.

(** Without the begin marker there is no block. *)
Lemma ds_no_marker_no_block (text : str) :
  contains DS.calls_begin text = false ->
  finditer DS.tool_call_block_re text = [].
Proof.
  intros H. destruct (finditer DS.tool_call_block_re text) as [|m ms] eqn:E;
    [reflexivity|exfalso].
  assert (Hin : In m (finditer DS.tool_call_block_re text))
    by (rewrite E; left; reflexivity).
  apply finditer_In in Hin. destruct Hin as [Hle Hm].
  unfold DS.tool_call_block_re in Hm. apply match_at_escape in Hm.
  destruct Hm as [Hs _].
  destruct (find_startswith DS.call_begin text (m_start m) Hs)
    as (i & Hi & _).
  unfold contains, DS.call_begin in *. rewrite Hi in H. discriminate.
Qed.

(** A match of the Phi-4 pattern is never the empty string. *)
Lemma phi4_match_nonempty (text : str) (m : match_obj) :
  In m (finditer Phi4.TOOL_CALL_REGEX text) -> group0 text m <> [].
Proof.
  intros H. apply finditer_In in H. destruct H as [_ H].
  unfold group0, slice.
  destruct (skipn (m_start m) text) as [|c s'] eqn:E.
  - simpl in H. discriminate.
  - change Phi4.TOOL_CALL_REGEX with
      (IOne (AChar 123) :: tl Phi4.TOOL_CALL_REGEX) in H.
    cbn [match_at] in H. destruct (accepts (AChar 123) c); [|discriminate].
    apply match_at_bounds in H.
    destruct (m_end m - m_start m) eqn:D; [lia|]. simpl. discriminate.
Qed.

(** The block pattern at a position: the begin marker there, and the first
    end marker after it. *)
Lemma ds_match_at (pos : nat) (s : str) :
  match_at DS.tool_call_block_re pos s =
  if startswith DS.call_begin s then
    match find DS.call_end (skipn (length DS.call_begin) s) with
    | Some i =>
        let g := pos + length DS.call_begin in
        Some (g + i + length DS.call_end, [g; g + i])
    | None => None
    end
  else None.
Proof.
  unfold DS.tool_call_block_re. rewrite match_at_escape_eq.
  destruct (startswith DS.call_begin s); [|reflexivity].
  change ([IMark; ILazy AAny; IMark] ++ escape DS.call_end)
    with (IMark :: ILazy AAny :: IMark :: escape DS.call_end).
  rewrite match_at_mark, match_at_lazy_any.
  destruct (find DS.call_end _); reflexivity.
Qed.

Lemma find_skipn (sub s : str) (d : nat) :
  find sub (skipn d s) <> None -> find sub s <> None.
Proof.
  destruct (find sub (skipn d s)) as [j|] eqn:F; [|congruence]. intros _.
  apply find_spec in F. destruct F as (_ & F & _).
  rewrite skipn_skipn in F.
  destruct (find_startswith sub s _ F) as (i & -> & _). discriminate.
Qed.

(** The first block begins at the first occurrence of the begin marker. *)
Lemma ds_first_span (text : str) (m : match_obj) (ms : list match_obj) :
  finditer DS.tool_call_block_re text = m :: ms ->
  find DS.calls_begin text = Some (m_start m).
Proof.
  intros H. apply scan_first in H.
  destruct H as (k & Hk & _ & Hm & Hleft). cbn [Nat.add] in Hk, Hm, Hleft.
  subst k. rewrite ds_match_at in Hm.
  destruct (startswith DS.call_begin (skipn (m_start m) text)) eqn:B;
    [|discriminate].
  destruct (find_startswith DS.call_begin text _ B) as (i & Hi & Hle).
  change DS.calls_begin with DS.call_begin.
  rewrite Hi. f_equal.
  destruct (Nat.eq_dec i (m_start m)) as [E|E]; [exact E|exfalso].
  apply find_spec in Hi. destruct Hi as (_ & Hs & _).
  assert (Hi : i < m_start m) by lia.
  pose proof (Hleft i Hi) as N. rewrite ds_match_at, Hs in N.
  destruct (find DS.call_end (skipn (length DS.call_begin) (skipn i text)))
    eqn:F; [discriminate|].
  revert F. apply (find_skipn _ _ (m_start m - i)).
  assert (Q : skipn (m_start m - i)
                (skipn (length DS.call_begin) (skipn i text))
              = skipn (length DS.call_begin) (skipn (m_start m) text))
    by (rewrite !skipn_skipn; f_equal; lia).
  rewrite Q. intros F. rewrite F in Hm. discriminate.
Qed.

(** The loops append, in order, the calls of the spans that decode. *)
Lemma ds_loop (spans : list str) :
  forall calls,
    fold_left DS.loop_body spans calls = calls ++ keep_ok ds_span_call spans.
Proof.
  induction spans as [|x l IH]; intros calls; simpl.
  - now rewrite app_nil_r.
  - rewrite IH. unfold DS.loop_body, ds_span_call.
    destruct (strip x) as [|c j] eqn:E; simpl.
    + reflexivity.
    + destruct (DS.parse_call (c :: j)); simpl;
        [now rewrite <- app_assoc|reflexivity].
Qed.

Lemma phi4_loop (spans : list str) :
  forall calls,
    fold_left Phi4.loop_body spans calls
    = calls ++ keep_ok phi4_span_call spans.
Proof.
  induction spans as [|x l IH]; intros calls; simpl.
  - now rewrite app_nil_r.
  - rewrite IH. unfold Phi4.loop_body, phi4_span_call.
    destruct (Phi4.parse_call x); simpl;
      [now rewrite <- app_assoc|reflexivity].
Qed.

(** The DeepSeek extractor, with its handlers resolved. *)
Lemma ds_extract_eq (text : str) :
  DS.extract_tool_calls text =
  if contains DS.calls_begin text then
    let calls := keep_ok ds_span_call (DS.findall text) in
    let c := strip match find DS.calls_begin text with
                   | Some i => firstn i text
                   | None => text
                   end in
    {| tools_called := truthy calls; tool_calls := calls;
       content := if truthy c then Some c else None |}
  else DS.fallback text.
Proof.
  unfold DS.extract_tool_calls, DS.extract_body.
  destruct (contains DS.calls_begin text); [|reflexivity].
  rewrite (split_head_nonempty _ text calls_begin_nonempty).
  rewrite ds_loop. reflexivity.
Qed.

(** The Phi-4 extractor never raises: the split is by a non-empty match. *)
Lemma phi4_extract_eq (text : str) :
  Phi4.extract_tool_calls text =
  let matches := Phi4.findall text in
  let calls := keep_ok phi4_span_call matches in
  let c := match matches with
           | m0 :: _ =>
               strip match find m0 text with
                     | Some i => firstn i text
                     | None => text
                     end
           | [] => text
           end in
  Ok {| tools_called := truthy calls; tool_calls := calls;
        content := Some (if truthy calls then c else text) |}.
Proof.
  unfold Phi4.extract_tool_calls. rewrite phi4_loop. simpl.
  destruct (Phi4.findall text) as [|m0 ms] eqn:E; [reflexivity|].
  assert (Hne : m0 <> []).
  { unfold Phi4.findall in E.
    destruct (finditer Phi4.TOOL_CALL_REGEX text) as [|m ms'] eqn:F;
      [discriminate|].
    simpl in E. inversion E; subst.
    apply phi4_match_nonempty. rewrite F. left; reflexivity. }
  rewrite (split_head_nonempty _ text Hne). reflexivity.
Qed.

(** The calls of the DeepSeek extractor are those of the spans that
    decode, also when the marker is absent. *)
Lemma ds_tool_calls_eq (text : str) :
  tool_calls (DS.extract_tool_calls text)
  = keep_ok ds_span_call (DS.findall text).
Proof.
  rewrite ds_extract_eq.
  destruct (contains DS.calls_begin text) eqn:C; simpl; [reflexivity|].
  unfold DS.findall. rewrite (ds_no_marker_no_block text C). reflexivity.
Qed.

End ExtractFacts.

Lemma truthy_iff {A : Type} (l : list A) : truthy l = true <-> l <> [].
Proof. destruct l; simpl; split; congruence. Qed.

Lemma keep_ok_app {A B : Type} (f : A -> option B) (l1 l2 : list A) :
  keep_ok f (l1 ++ l2) = keep_ok f l1 ++ keep_ok f l2.
Proof.
  induction l1 as [|x l1 IH]; simpl; [reflexivity|].
  destruct (f x); simpl; now rewrite IH.
Qed.



(** ** The codec: what [dumps] writes, [loads] reads *)

Section CodecFacts.

Local Open Scope N_scope.

(** *** Fuel

    The scanner consumes text at every turn, so the fuel [loads] gives it
    is enough: whatever the scanner accepts with any fuel, [loads]
    accepts. *)

Lemma skip_ws_length (s : str) : (length (skip_ws s) <= length s)%nat.
Proof.
  induction s as [|c s IH]; simpl; [lia|].
  destruct (is_ws c); simpl; lia.
Qed.

Lemma push_length (c : N) (o : option (str * str)) (x r : str) (k : nat) :
  push c o = Some (x, r) ->
  (forall x' r', o = Some (x', r') -> (length r' < k)%nat) ->
  (length r < k)%nat.
Proof.
  destruct o as [[x' r']|]; simpl; [|discriminate].
  intros H K. inversion H; subst. eauto.
Qed.

Lemma scanstring_length :
  forall n s x r,
    (length s <= n)%nat -> scanstring s = Some (x, r) ->
    (length r < length s)%nat.
Proof.
  induction n as [|n IH]; intros s x r Hn H.
  - destruct s; [discriminate|simpl in Hn; lia].
  - destruct s as [|c s1]; [discriminate|].
    cbn [scanstring] in H. cbn [length] in *.
    assert (R : forall t x' r', (length t <= length s1)%nat ->
                  scanstring t = Some (x', r') ->
                  (length r' < S (length s1))%nat).
    { intros t x' r' Ht Hs. apply IH in Hs; lia. }
    destruct (c =? 34).
    { inversion H; subst. lia. }
    destruct (c =? 92).
    + destruct s1 as [|e s2]; [discriminate|]. cbn [length] in *.
      destruct (e =? 117).
      * destruct s2 as [|h1 [|h2 [|h3 [|h4 s3]]]]; try discriminate.
        cbn [length] in *.
        destruct (hex4 h1 h2 h3 h4) as [u|]; [|discriminate].
        destruct s3 as [|b [|v [|g1 [|g2 [|g3 [|g4 s4]]]]]];
          cbn [length] in *;
          try (eapply push_length; [exact H|]; intros x' r' Hs;
               apply R in Hs; cbn [length]; lia).
        destruct (surrogate_pair u b v g1 g2 g3 g4);
          (eapply push_length; [exact H|]; intros x' r' Hs;
           apply R in Hs; cbn [length]; lia).
      * destruct (unescape e); [|discriminate].
        eapply push_length; [exact H|]. intros x' r' Hs.
        apply R in Hs; cbn [length]; lia.
    + destruct (c <? 32); [discriminate|].
      eapply push_length; [exact H|]. intros x' r' Hs.
      apply R in Hs; cbn [length]; lia.
Qed.

Lemma span_digits_length (s : str) :
  forall ds r, span_digits s = (ds, r) ->
               length s = (length ds + length r)%nat.
Proof.
  induction s as [|c s IH]; intros ds r H; simpl in H.
  - inversion H; reflexivity.
  - destruct (is_digit c).
    + destruct (span_digits s) as [ds' r'] eqn:E. inversion H; subst.
      simpl. rewrite (IH ds' r eq_refl). reflexivity.
    + inversion H; subst. reflexivity.
Qed.

Lemma frac_part_length (s fr r : str) :
  frac_part s = (fr, r) -> (length r <= length s)%nat.
Proof.
  unfold frac_part. destruct s as [|c s']; [intros H; inversion H; lia|].
  destruct (c =? 46); [|intros H; inversion H; lia].
  destruct (span_digits s') as [[|d ds] r'] eqn:E; intros H;
    inversion H; subst; [lia|].
  apply span_digits_length in E. simpl in *. lia.
Qed.

Lemma exp_part_length (s r : str) (ex : option Z) :
  exp_part s = (ex, r) -> (length r <= length s)%nat.
Proof.
  unfold exp_part. destruct s as [|c s']; [intros H; inversion H; lia|].
  destruct ((c =? 101) || (c =? 69)); [|intros H; inversion H; lia].
  assert (G : forall t (neg : bool), (length t <= length s')%nat ->
     match span_digits t with
     | ([], _) => (@None Z, c :: s')
     | (ds, r0) =>
         let v := Z.of_N (digits_value ds) in
         (Some (if neg then Z.opp v else v), r0)
     end = (ex, r)
     -> (length r <= length (c :: s'))%nat).
  { intros t neg Ht K. destruct (span_digits t) as [[|d ds] r0] eqn:E.
    - inversion K; subst; simpl; lia.
    - apply span_digits_length in E.
      inversion K; subst; simpl in *; lia. }
  destruct s' as [|g t]; [apply (G [] false (le_n _))|].
  destruct (g =? 45); [apply (G t true); simpl; lia|].
  destruct (g =? 43); [apply (G t false)|apply (G (g :: t) false)];
    simpl; lia.
Qed.

Lemma int_part_length (s ip r : str) :
  int_part s = Some (ip, r) -> (length r < length s)%nat.
Proof.
  unfold int_part. destruct s as [|c s']; [discriminate|].
  destruct (c =? 48); [intros H; inversion H; subst; simpl; lia|].
  destruct (is_digit c); [|discriminate].
  destruct (span_digits s') as [ds r'] eqn:E. intros H; inversion H; subst.
  apply span_digits_length in E. simpl. lia.
Qed.

Lemma match_number_length (s r : str) (v : json) :
  match_number s = Some (v, r) -> (length r < length s)%nat.
Proof.
  unfold match_number.
  assert (G : forall s1, (length s1 <= length s)%nat -> forall neg : bool,
    match int_part s1 with
    | None => None
    | Some (ip, s2) =>
        let (fr, s3) := frac_part s2 in
        let (ex, s4) := exp_part s3 in
        let sign (z : Z) := if neg then Z.opp z else z in
        match fr, ex with
        | [], None => Some (JInt (sign (Z.of_N (digits_value ip))), s4)
        | _, _ =>
            let e := match ex with Some x => x | None => 0%Z end in
            Some (JFloat (sign (Z.of_N (digits_value (ip ++ fr))))
                         (e - Z.of_nat (length fr))%Z, s4)
        end
    end = Some (v, r) -> (length r < length s)%nat).
  { intros s1 H1 neg. destruct (int_part s1) as [[ip s2]|] eqn:I;
      [|discriminate].
    apply int_part_length in I.
    destruct (frac_part s2) as [fr s3] eqn:F. apply frac_part_length in F.
    destruct (exp_part s3) as [ex s4] eqn:X. apply exp_part_length in X.
    destruct fr, ex; intros H; inversion H; subst; lia. }
  destruct s as [|c s']; [apply (G [] (le_n _) false)|].
  destruct (c =? 45);
    [apply (G s' (Nat.le_succ_diag_r _) true)
    |apply (G (c :: s') (le_n _) false)].
Qed.

Lemma skipn_shorter (n : nat) (s : str) :
  s <> [] -> (0 < n)%nat -> (length (skipn n s) < length s)%nat.
Proof.
  intros Hs Hn. rewrite length_skipn.
  destruct s; [congruence|cbn [length]; lia].
Qed.

Lemma some_skipn_length (v v' : json) (n : nat) (s r : str) :
  Some (v', skipn n s) = Some (v, r) -> s <> [] -> (0 < n)%nat ->
  (length r < length s)%nat.
Proof.
  intros E. assert (R : r = skipn n s) by congruence.
  rewrite R. apply skipn_shorter.
Qed.

Lemma match_constant_length (s r : str) (v : json) :
  match_constant s = Some (v, r) -> (length r < length s)%nat.
Proof.
  unfold match_constant. destruct s as [|c s']; [discriminate|].
  repeat match goal with
         | |- context [if ?b then _ else _] => destruct b
         end; intros H;
    first [discriminate H
          |eapply some_skipn_length; [exact H|discriminate|lia]].
Qed.

Lemma match_nan_inf_length (s r : str) (v : json) :
  match_nan_inf s = Some (v, r) -> (length r < length s)%nat.
Proof.
  unfold match_nan_inf. destruct s as [|c s']; [discriminate|].
  repeat match goal with
         | |- context [if ?b then _ else _] => destruct b
         end; intros H;
    first [discriminate H
          |eapply some_skipn_length; [exact H|discriminate|lia]].
Qed.

Ltac ws_cases t :=
  let W := fresh "W" in
  pose proof (skip_ws_length t) as W;
  destruct (skip_ws t) as [|? ?] eqn:?; cbn [length] in W.

Ltac branch b := destruct b eqn:?.

(** Every successful call of the scanner consumes text. *)
Lemma scan_progress :
  forall f,
    (forall s v r, scan_once f s = Some (v, r) ->
                   (length r < length s)%nat) /\
    (forall s acc v r, array_loop f acc s = Some (v, r) ->
                       (length r < length s)%nat) /\
    (forall s acc v r, object_loop f acc s = Some (v, r) ->
                       (length r < length s)%nat).
Proof.
  induction f as [|g (IH1 & IH2 & IH3)];
    [repeat split; intros; discriminate|].
  repeat split.
  - intros s v r H. cbn [scan_once] in H.
    destruct s as [|c s']; [discriminate|]. cbn [length].
    branch (c =? 34).
    { destruct (scanstring s') as [[x r0]|] eqn:E; [|discriminate].
      inversion H; subst. apply (scanstring_length _ _ _ _ (le_n _)) in E.
      lia. }
    branch (c =? 123).
    { ws_cases s'; [discriminate|].
      branch (n =? 125); [inversion H; subst; lia|].
      branch (n =? 34); [|discriminate]. apply IH3 in H. lia. }
    branch (c =? 91).
    { ws_cases s'; [discriminate|].
      branch (n =? 93); [inversion H; subst; lia|].
      apply IH2 in H. cbn [length] in H. lia. }
    destruct (match_constant (c :: s')) as [[v' r']|] eqn:E1.
    { inversion H; subst. apply match_constant_length in E1. exact E1. }
    destruct (match_number (c :: s')) as [[v' r']|] eqn:E2.
    { inversion H; subst. apply match_number_length in E2. exact E2. }
    apply match_nan_inf_length in H. exact H.
  - intros s acc v r H. cbn [array_loop] in H.
    destruct (scan_once g s) as [[value r0]|] eqn:E; [|discriminate].
    apply IH1 in E. ws_cases r0; [discriminate|].
    branch (n =? 93); [inversion H; subst; lia|].
    branch (n =? 44); [|discriminate].
    apply IH2 in H. pose proof (skip_ws_length l). lia.
  - intros s acc v r H. cbn [object_loop] in H.
    destruct (scanstring s) as [[key r0]|] eqn:E; [|discriminate].
    apply (scanstring_length _ _ _ _ (le_n _)) in E.
    ws_cases r0; [discriminate|].
    branch (n =? 58); [|discriminate].
    destruct (scan_once g (skip_ws l)) as [[value r2]|] eqn:E2;
      [|discriminate].
    apply IH1 in E2. pose proof (skip_ws_length l).
    ws_cases r2; [discriminate|].
    branch (n0 =? 125); [inversion H; subst; lia|].
    branch (n0 =? 44); [|discriminate].
    ws_cases l0; [discriminate|].
    branch (n1 =? 34); [|discriminate].
    apply IH3 in H. lia.
Qed.

(** More fuel keeps what less fuel found. *)
Lemma fuel_mono :
  forall f,
    (forall s x, scan_once f s = Some x -> scan_once (S f) s = Some x) /\
    (forall s acc x, array_loop f acc s = Some x ->
                     array_loop (S f) acc s = Some x) /\
    (forall s acc x, object_loop f acc s = Some x ->
                     object_loop (S f) acc s = Some x).
Proof.
  induction f as [|g (IH1 & IH2 & IH3)];
    [repeat split; intros; discriminate|].
  repeat split.
  - intros s x H.
    change (scan_once (S (S g)) s) with
      (match s with
       | [] => None
       | c :: s' =>
           if c =? 34 then
             match scanstring s' with
             | Some (x, r) => Some (JStr x, r)
             | None => None
             end
           else if c =? 123 then
             match skip_ws s' with
             | c1 :: r1 =>
                 if c1 =? 125 then Some (JObj [], r1)
                 else if c1 =? 34 then object_loop (S g) [] r1
                 else None
             | [] => None
             end
           else if c =? 91 then
             match skip_ws s' with
             | c1 :: r1 =>
                 if c1 =? 93 then Some (JArr [], r1)
                 else array_loop (S g) [] (c1 :: r1)
             | [] => None
             end
           else
             match match_constant s with
             | Some r => Some r
             | None =>
                 match match_number s with
                 | Some r => Some r
                 | None => match_nan_inf s
                 end
             end
       end).
    cbn [scan_once] in H. destruct s as [|c s']; [discriminate|].
    branch (c =? 34); [exact H|].
    branch (c =? 123).
    { destruct (skip_ws s') as [|c1 r1]; [discriminate|].
      branch (c1 =? 125); [exact H|].
      branch (c1 =? 34); [apply IH3, H|discriminate]. }
    branch (c =? 91); [|exact H].
    destruct (skip_ws s') as [|c1 r1]; [discriminate|].
    branch (c1 =? 93); [exact H|apply IH2, H].
  - intros s acc x H.
    change (array_loop (S (S g)) acc s) with
      (match scan_once (S g) s with
       | None => None
       | Some (value, r) =>
           let values' := acc ++ [value] in
           match skip_ws r with
           | c :: r1 =>
               if c =? 93 then Some (JArr values', r1)
               else if c =? 44 then array_loop (S g) values' (skip_ws r1)
               else None
           | [] => None
           end
       end).
    cbn [array_loop] in H.
    destruct (scan_once g s) as [[value r]|] eqn:E; [|discriminate].
    rewrite (IH1 _ _ E). cbv zeta in *.
    destruct (skip_ws r) as [|c r1]; [discriminate|].
    branch (c =? 93); [exact H|].
    branch (c =? 44); [apply IH2, H|discriminate].
  - intros s acc x H.
    change (object_loop (S (S g)) acc s) with
      (match scanstring s with
       | None => None
       | Some (key, r) =>
           match skip_ws r with
           | c :: r1 =>
               if c =? 58 then
                 match scan_once (S g) (skip_ws r1) with
                 | None => None
                 | Some (value, r2) =>
                     let pairs' := acc ++ [(key, value)] in
                     match skip_ws r2 with
                     | c2 :: r3 =>
                         if c2 =? 125
                         then Some (JObj (dict_of_pairs pairs'), r3)
                         else if c2 =? 44 then
                           match skip_ws r3 with
                           | q :: r4 =>
                               if q =? 34 then object_loop (S g) pairs' r4
                               else None
                           | [] => None
                           end
                         else None
                     | [] => None
                     end
                 end
               else None
           | [] => None
           end
       end).
    cbn [object_loop] in H.
    destruct (scanstring s) as [[key r]|]; [|discriminate].
    destruct (skip_ws r) as [|c r1]; [discriminate|].
    branch (c =? 58); [|discriminate].
    destruct (scan_once g (skip_ws r1)) as [[value r2]|] eqn:E;
      [|discriminate].
    rewrite (IH1 _ _ E). cbv zeta in *.
    destruct (skip_ws r2) as [|c2 r3]; [discriminate|].
    branch (c2 =? 125); [exact H|].
    branch (c2 =? 44); [|discriminate].
    destruct (skip_ws r3) as [|q r4]; [discriminate|].
    branch (q =? 34); [apply IH3, H|discriminate].
Qed.

Lemma fuel_mono_le (f f' : nat) (s : str) (x : json * str) :
  (f <= f')%nat -> scan_once f s = Some x -> scan_once f' s = Some x.
Proof.
  induction 1 as [|f' _ IH]; [auto|].
  intros H. apply (proj1 (fuel_mono f')), IH, H.
Qed.

(** Above twice the length of the text, the fuel no longer matters. *)
Lemma fuel_enough :
  forall f,
    (forall s f', (2 * length s + 1 <= f)%nat -> (f <= f')%nat ->
                  scan_once f' s = scan_once f s) /\
    (forall s acc f', (2 * length s + 2 <= f)%nat -> (f <= f')%nat ->
                      array_loop f' acc s = array_loop f acc s) /\
    (forall s acc f', (2 * length s + 2 <= f)%nat -> (f <= f')%nat ->
                      object_loop f' acc s = object_loop f acc s).
Proof.
  induction f as [|g (IH1 & IH2 & IH3)]; [repeat split; intros; lia|].
  repeat split.
  - intros s [|g'] Hb Hf; [lia|]. cbn [scan_once].
    destruct s as [|c s']; [reflexivity|]. cbn [length] in Hb.
    branch (c =? 34); [reflexivity|].
    branch (c =? 123).
    { ws_cases s'; [reflexivity|].
      branch (n =? 125); [reflexivity|].
      branch (n =? 34); [apply IH3; lia|reflexivity]. }
    branch (c =? 91); [|reflexivity].
    ws_cases s'; [reflexivity|].
    branch (n =? 93); [reflexivity|].
    apply IH2; cbn [length]; lia.
  - intros s acc [|g'] Hb Hf; [lia|]. cbn [array_loop].
    rewrite (IH1 s g') by lia.
    destruct (scan_once g s) as [[value r0]|] eqn:E; [|reflexivity].
    apply (proj1 (scan_progress g)) in E. cbv zeta.
    ws_cases r0; [reflexivity|].
    branch (n =? 93); [reflexivity|].
    branch (n =? 44); [|reflexivity].
    pose proof (skip_ws_length l). apply IH2; lia.
  - intros s acc [|g'] Hb Hf; [lia|]. cbn [object_loop].
    destruct (scanstring s) as [[key r0]|] eqn:E; [|reflexivity].
    apply (scanstring_length _ _ _ _ (le_n _)) in E.
    ws_cases r0; [reflexivity|].
    branch (n =? 58); [|reflexivity].
    pose proof (skip_ws_length l).
    rewrite (IH1 (skip_ws l) g') by lia.
    destruct (scan_once g (skip_ws l)) as [[value r2]|] eqn:E2;
      [|reflexivity].
    apply (proj1 (scan_progress g)) in E2. cbv zeta.
    ws_cases r2; [reflexivity|].
    branch (n0 =? 125); [reflexivity|].
    branch (n0 =? 44); [|reflexivity].
    ws_cases l0; [reflexivity|].
    branch (n1 =? 34); [|reflexivity].
    apply IH3; lia.
Qed.

(** The fuel of [loads] is enough: a text the scanner accepts with some
    fuel, up to trailing whitespace, is a text [loads] decodes. *)
Theorem loads_complete (s r : str) (fuel : nat) (v : json) :
  scan_once fuel (skip_ws s) = Some (v, r) -> skip_ws r = [] ->
  loads s = Ok v.
Proof.
  intros H Hr. unfold loads.
  assert (E : scan_once (2 * length s + 2) (skip_ws s) = Some (v, r)).
  { destruct (Nat.le_gt_cases fuel (2 * length s + 2)) as [L|L].
    - exact (fuel_mono_le _ _ _ _ L H).
    - rewrite <- H. symmetry. pose proof (skip_ws_length s).
      apply (proj1 (fuel_enough (2 * length s + 2))); lia. }
  rewrite E, Hr. reflexivity.
Qed.

(** *** Numerals *)

Lemma digits_value_snoc (ds : str) (d : char) :
  digits_value (ds ++ [d]) = 10 * digits_value ds + (d - 48).
Proof. unfold digits_value. rewrite fold_left_app. reflexivity. Qed.

Lemma is_digit_add (n : N) : n < 10 -> is_digit (48 + n) = true.
Proof.
  intros H. unfold is_digit. apply andb_true_intro.
  split; apply N.leb_le; lia.
Qed.

Lemma decimal_fuel_numeral :
  forall fuel n acc,
    n < 2 ^ N.of_nat (S fuel) ->
    exists ds, decimal_fuel (S fuel) n acc = ds ++ acc /\ numeral ds n.
Proof.
  induction fuel as [|fuel IH]; intros n acc Hn;
    cbn [decimal_fuel]; destruct (n <? 10) eqn:E.
  1, 3: apply N.ltb_lt in E; exists [48 + n mod 10];
    (split; [reflexivity|]);
    rewrite (N.mod_small n 10 E); repeat split;
    [ cbn [forallb]; now rewrite (is_digit_add n E)
    | unfold digits_value; cbn [fold_left]; lia
    | exists (48 + n), []; auto ].
  - apply N.ltb_ge in E. change (2 ^ N.of_nat 1) with 2 in Hn. lia.
  - apply N.ltb_ge in E.
    destruct (IH (n / 10) ((48 + n mod 10) :: acc)) as (ds & Hds & Hnum).
    { rewrite Nat2N.inj_succ, N.pow_succ_r' in Hn.
      apply N.Div0.div_lt_upper_bound. lia. }
    exists (ds ++ [48 + n mod 10]). split.
    { cbn [decimal_fuel] in Hds. rewrite Hds, <- app_assoc. reflexivity. }
    destruct Hnum as (Hd & Hv & c & r & Hc & Hz).
    assert (Hm : n mod 10 < 10) by (apply N.mod_lt; lia).
    repeat split.
    + rewrite forallb_app, Hd. cbn [forallb andb].
      now rewrite (is_digit_add _ Hm).
    + rewrite digits_value_snoc, Hv.
      assert (Hdm : n = 10 * (n / 10) + n mod 10)
        by (apply N.div_mod; discriminate).
      clear - Hdm Hm. revert Hdm Hm.
      generalize (n mod 10), (n / 10). intros; lia.
    + exists c, (r ++ [48 + n mod 10]). split; [subst ds; reflexivity|].
      intros ->. specialize (Hz eq_refl). subst r ds.
      unfold digits_value in Hv. cbn [fold_left] in Hv.
      assert (Hq : 1 <= n / 10) by (apply N.div_le_lower_bound; lia).
      clear - Hq Hv. revert Hq Hv. generalize (n / 10). intros; lia.
Qed.

Lemma decimal_numeral (n : N) : numeral (decimal n) n.
Proof.
  unfold decimal.
  destruct (decimal_fuel_numeral (N.to_nat (N.log2 n)) n []) as
    (ds & Hds & Hnum).
  - rewrite Nat2N.inj_succ, N2Nat.id.
    destruct n as [|p]; [reflexivity|].
    apply N.log2_spec. lia.
  - rewrite Hds, app_nil_r. exact Hnum.
Qed.

(** *** Numbers are read back *)














(** *** Strings are read back *)





(** *** Values are read back *)

















(** *** Decoded values are normal

    so that decoding what was encoded from a decoded value gives the value
    back. *)

Lemma eqb_eq (a b : str) : PyStr.eqb a b = true <-> a = b.
Proof.
  revert b. induction a as [|x a IH]; intros [|y b]; simpl;
    try (split; [discriminate|congruence]); [tauto|].
  rewrite andb_true_iff, N.eqb_eq, IH.
  split; [intros [-> ->]; reflexivity|intros H; inversion H; auto].
Qed.















End CodecFacts.

(** ** Call records *)

Section RecordFacts.







End RecordFacts.

(** ** The streaming steps *)

Section StepFacts.

Lemma last_item_map {A B : Type} (f : A -> B) (l : list A) :
  last_item (map f l) = option_map f (last_item l).
Proof.
  induction l as [|x l IH]; [reflexivity|].
  destruct l as [|y l]; [reflexivity|]. exact IH.
Qed.

Lemma last_item_nil {A : Type} (l : list A) : last_item l = None <-> l = [].
Proof.
  split; [|intros ->; reflexivity].
  induction l as [|x l IH]; [reflexivity|].
  destruct l as [|y l]; [discriminate|]. intros H. apply IH in H. discriminate.
Qed.

(** What the DeepSeek step returns and how far it moves the generator, by
    the last candidate span of the current text. *)
Lemma ds_step_eq (ids : nat -> str) (prev cur delta : str) (n : nat) :
  DS.extract_tool_calls_streaming ids prev cur delta n =
  match last_item (spans (ds_extractor ids) cur) with
  | None => (content_event delta, n)
  | Some span =>
      match loads (strip span) with
      | Raise _ => (None, n)
      | Ok _ =>
          (match x_decode (ds_extractor ids) span with
           | Some r =>
               call_event {| index := 0; dtc_type := lit "function";
                             id := ids n; function := r |}
           | None => None
           end, S n)
      end
  end.
Proof.
  unfold DS.extract_tool_calls_streaming, spans. simpl.
  rewrite last_item_map.
  destruct (last_item (finditer DS.tool_call_block_re cur)) as [m|];
    [|reflexivity].
  simpl. unfold ds_span_call, DS.parse_call.
  destruct (strip (group1 cur m)) as [|c j] eqn:E; [reflexivity|].
  simpl. destruct (loads (c :: j)) as [obj|e]; [|reflexivity].
  unfold DS.delta_call, gbind, ret, random_tool_call_id. simpl.
  destruct (getitem obj (lit "name")) as [nm|]; simpl; [|reflexivity].
  destruct (getitem obj (lit "parameters")) as [pa|]; simpl; [|reflexivity].
  unfold DeltaFunctionCall, FunctionCall.
  destruct (build_call_record nm (dumps pa)); reflexivity.
Qed.

(** The same for the Phi-4 step, which draws no id. *)
Lemma phi4_step_eq (prev cur delta : str) :
  Phi4.extract_tool_calls_streaming prev cur delta =
  match last_item (spans phi4_extractor cur) with
  | None => content_event delta
  | Some span =>
      match x_decode phi4_extractor span with
      | Some r =>
          call_event {| index := length (spans phi4_extractor cur) - 1;
                        dtc_type := lit "function";
                        id := lit "phi4_tool_call_stream"; function := r |}
      | None => None
      end
  end.
Proof.
  unfold Phi4.extract_tool_calls_streaming, spans. simpl.
  fold (Phi4.findall cur).
  destruct (last_item (Phi4.findall cur)) as [span|]; [|reflexivity].
  unfold phi4_span_call, Phi4.parse_call.
  destruct (loads span) as [obj|]; simpl; [|reflexivity].
  destruct (getitem obj (lit "name")) as [nm|]; simpl; [|reflexivity].
  destruct (getitem obj (lit "arguments")) as [pa|]; simpl; [|reflexivity].
  unfold DeltaFunctionCall, FunctionCall.
  destruct (build_call_record nm (dumps pa)); reflexivity.
Qed.

(** Every step of a session is a step of the extractor on some text. *)
Lemma session_nth (step : str -> str -> str -> gen (option DeltaMessage)) :
  forall deltas prev n i cur out,
    nth_error (fst (session step prev deltas n)) i = Some (cur, out) ->
    exists p d k, cur = p ++ d /\ out = fst (step p cur d k).
Proof.
  induction deltas as [|d ds IH]; intros prev n i cur out H.
  - destruct i; discriminate.
  - simpl in H. unfold gbind, ret in H.
    destruct (step prev (prev ++ d) d n) as [o n1] eqn:E1.
    destruct (session step (prev ++ d) ds n1) as [os n2] eqn:E2.
    simpl in H. destruct i as [|i]; simpl in H.
    + inversion H; subst. exists prev, d, n. rewrite E1. auto.
    + apply (IH (prev ++ d) n1 i cur out). rewrite E2. exact H.
Qed.

End StepFacts.

Section StepShape.

Lemma ds_decode_loads (span : str) (e : exn) :
  loads (strip span) = Raise e -> ds_span_call span = None.
Proof.
  intros H. unfold ds_span_call, DS.parse_call. rewrite H. reflexivity.
Qed.

Lemma ds_step_by_last_span (ids : nat -> str) :
  step_by_last_span (ds_extractor ids).
Proof.
  intros prev cur delta n.
  change (x_step (ds_extractor ids))
    with (DS.extract_tool_calls_streaming ids).
  rewrite ds_step_eq.
  destruct (last_item (spans (ds_extractor ids) cur)) as [span|];
    [|reflexivity].
  destruct (loads (strip span)) as [obj|e] eqn:L.
  - destruct (x_decode (ds_extractor ids) span) as [r|]; [|reflexivity].
    eexists. split; reflexivity.
  - simpl. rewrite (ds_decode_loads span e L). reflexivity.
Qed.

Lemma phi4_step_by_last_span : step_by_last_span phi4_extractor.
Proof.
  intros prev cur delta n.
  change (fst (x_step phi4_extractor prev cur delta n))
    with (Phi4.extract_tool_calls_streaming prev cur delta).
  rewrite phi4_step_eq.
  destruct (last_item (spans phi4_extractor cur)) as [span|]; [|reflexivity].
  destruct (x_decode phi4_extractor span) as [r|]; [|reflexivity].
  eexists. split; reflexivity.
Qed.

Lemma trace_nth (X : extractor) (deltas : list str) (n i : nat)
    (cur : str) (out : option DeltaMessage) :
  nth_error (trace X deltas n) i = Some (cur, out) ->
  exists p d k, out = fst (x_step X p cur d k).
Proof.
  intros H. apply session_nth in H. destruct H as (p & d & k & _ & H).
  eauto.
Qed.

(** A step decided by the last span emits at most one call, the call of
    that span, and repeats it while the last span stays the same. *)
Lemma last_span_reemitted (X : extractor) :
  step_by_last_span X -> reemits_last_span X.
Proof.
  intros HX deltas n. split.
  - apply Forall_forall. intros [cur out] Hin.
    apply In_nth_error in Hin. destruct Hin as [i Hi].
    apply trace_nth in Hi. destruct Hi as (p & d & k & ->). simpl.
    specialize (HX p cur d k).
    destruct (last_item (spans X cur)) as [span|].
    + destruct (x_decode X span) as [r|].
      * destruct HX as (tc & -> & _). simpl. lia.
      * rewrite HX. simpl. lia.
    + rewrite HX. simpl. lia.
  - intros i ci oi tc Hi Hev.
    apply trace_nth in Hi. destruct Hi as (p & d & k & ->).
    pose proof (HX p ci d k) as Hs.
    destruct (last_item (spans X ci)) as [span|] eqn:L.
    + destruct (x_decode X span) as [r|] eqn:D.
      * destruct Hs as (tc0 & Hs & Hr). rewrite Hs in Hev. simpl in Hev.
        inversion Hev; subst tc0. split.
        -- exists span. split; [reflexivity|]. now rewrite Hr.
        -- intros j cj oj _ Hj Hl.
           apply trace_nth in Hj. destruct Hj as (p' & d' & k' & ->).
           pose proof (HX p' cj d' k') as Hs'. rewrite Hl, D in Hs'.
           destruct Hs' as (tc' & Hs' & Hr'). exists tc'.
           rewrite Hs'. split; [reflexivity|congruence].
      * rewrite Hs in Hev. discriminate.
    + rewrite Hs in Hev. discriminate.
Qed.

End StepShape.

(** ** The ids of the DeepSeek step *)

Section FreshIds.

Variable ids : nat -> str.

(** A step draws at most one id, and an emitted event carries the id
    drawn. *)
Lemma ds_step_draw (prev cur delta : str) (n : nat) :
  let r := DS.extract_tool_calls_streaming ids prev cur delta n in
  (snd r = n /\ call_events (fst r) = []) \/
  (snd r = S n /\
   (call_events (fst r) = [] \/
    exists tc, call_events (fst r) = [tc] /\ id tc = ids n)).
Proof.
  cbv zeta. rewrite ds_step_eq.
  destruct (last_item (spans (ds_extractor ids) cur)) as [span|];
    [|left; split; reflexivity].
  destruct (loads (strip span)); [|left; split; reflexivity].
  right. split; [reflexivity|].
  destruct (x_decode (ds_extractor ids) span) as [r|];
    [right; eexists; split; reflexivity|left; reflexivity].
Qed.

(** The ids emitted in a session are the draws numbered by a strictly
    increasing list of states. *)
Lemma ds_session_draws :
  forall deltas prev n,
    let r := session (DS.extract_tool_calls_streaming ids) prev deltas n in
    n <= snd r /\
    exists ks,
      event_ids (fst r) = map ids ks /\
      Forall (fun k => n <= k < snd r) ks /\ NoDup ks.
Proof.
  induction deltas as [|d ds IH]; intros prev n; cbv zeta.
  - simpl. split; [lia|]. exists []. repeat split; constructor.
  - cbn [session]. unfold gbind, ret.
    pose proof (ds_step_draw prev (prev ++ d) d n) as Hstep. cbv zeta in Hstep.
    destruct (DS.extract_tool_calls_streaming ids prev (prev ++ d) d n)
      as [out n1].
    specialize (IH (prev ++ d) n1). cbv zeta in IH.
    destruct (session (DS.extract_tool_calls_streaming ids) (prev ++ d) ds n1)
      as [outs n2].
    cbn [fst snd] in *. destruct IH as (Hle & ks & Hks & Hrange & Hnd).
    assert (Hn1 : n <= n1) by (destruct Hstep as [[-> _]|[-> _]]; lia).
    split; [lia|].
    unfold event_ids in *. cbn [flat_map snd].
    destruct Hstep as [[_ Hev]|[-> [Hev|(tc & Hev & Hid)]]]; rewrite Hev.
    1, 2: exists ks; (split; [exact Hks|]); split; [|exact Hnd];
      eapply Forall_impl; [|exact Hrange]; cbv beta; intros; lia.
    exists (n :: ks). cbn [map app]. rewrite Hid, Hks.
    split; [reflexivity|]. split.
    + constructor; [lia|].
      eapply Forall_impl; [|exact Hrange]. cbv beta; intros; lia.
    + constructor; [|exact Hnd]. intros Hin.
      rewrite Forall_forall in Hrange. apply Hrange in Hin. lia.
Qed.

(** X10.  With a generator that never repeats itself, no two call
    events of a DeepSeek session share an id. *)
Theorem ds_ids_fresh :
  Injective ids ->
  forall deltas n, NoDup (event_ids (trace (ds_extractor ids) deltas n)).
Proof.
  intros Hinj deltas n.
  destruct (ds_session_draws deltas [] n) as (_ & ks & Hks & _ & Hnd).
  unfold trace. cbn [x_step ds_extractor]. rewrite Hks.
  apply Injective_map_NoDup; assumption.
Qed.

End FreshIds.

(** ** The leftover content in general *)

(** X3.  The tag-delimited extractor: when it returns calls, the
    leftover content is the trimmed text before the first block, and [None]
    when that is empty. *)
Theorem ds_leftover_is_trimmed_prefix (text : str) :
  tool_calls (DS.extract_tool_calls text) <> [] ->
  exists m ms,
    finditer DS.tool_call_block_re text = m :: ms /\
    content (DS.extract_tool_calls text)
    = trimmed_or_none (text_before text m).
Proof.
  intros H. rewrite ds_tool_calls_eq in H. unfold DS.findall in H.
  destruct (finditer DS.tool_call_block_re text) as [|m ms] eqn:F;
    [contradiction H; reflexivity|].
  exists m, ms. split; [reflexivity|].
  pose proof (ds_first_span text m ms F) as Hfind.
  rewrite ds_extract_eq. unfold contains. rewrite Hfind. reflexivity.
Qed.

(** X13.  The implicit-JSON extractor, when it returns calls, returns as
    content the trimmed text before the first candidate, as a string also
    when it is empty. *)
Theorem phi4_leftover_is_trimmed_prefix (text : str)
    (r : ExtractedToolCallInformation) :
  Phi4.extract_tool_calls text = Ok r ->
  tool_calls r <> [] ->
  exists m ms,
    finditer Phi4.TOOL_CALL_REGEX text = m :: ms /\
    content r = Some (strip (text_before text m)).
Proof.
  rewrite phi4_extract_eq. intros Hr H. inversion Hr; subst r. clear Hr.
  simpl in *. unfold Phi4.findall in *.
  destruct (finditer Phi4.TOOL_CALL_REGEX text) as [|m ms] eqn:F;
    [contradiction H; reflexivity|].
  exists m, ms. split; [reflexivity|].
  apply truthy_iff in H. cbn [map] in *. rewrite H.
  now rewrite (first_match_find _ _ _ _ F).
Qed.

(** ** More on strings *)

Section SegmentFacts.

Lemma startswith_split (l : str) :
  forall s, startswith l s = true -> s = l ++ skipn (length l) s.
Proof.
  induction l as [|x l IH]; intros s H; [reflexivity|].
  destruct s as [|c s']; [discriminate|]. simpl in H.
  apply andb_prop in H. destruct H as [H1 H2]. apply N.eqb_eq in H1.
  subst c. simpl. f_equal. exact (IH _ H2).
Qed.

Lemma startswith_app_r (l : str) :
  forall s t, startswith l s = true -> startswith l (s ++ t) = true.
Proof.
  induction l as [|x l IH]; intros s t H; [reflexivity|].
  destruct s as [|c s']; [discriminate|]. simpl in *.
  apply andb_prop in H. destruct H as [H1 H2].
  now rewrite H1, (IH _ _ H2).
Qed.

Lemma startswith_length (l s : str) :
  startswith l s = true -> length l <= length s.
Proof.
  revert s. induction l as [|x l IH]; intros s H; simpl; [lia|].
  destruct s as [|c s']; [discriminate|]. simpl in *.
  apply andb_prop in H. destruct H as [_ H]. apply IH in H. lia.
Qed.

Lemma startswith_app_inv (l : str) :
  forall s t,
    startswith l (s ++ t) = true -> length l <= length s ->
    startswith l s = true.
Proof.
  induction l as [|x l IH]; intros s t H Hl; [reflexivity|].
  destruct s as [|c s']; [simpl in Hl; lia|]. simpl in *.
  apply andb_prop in H. destruct H as [H1 H2].
  rewrite H1. apply (IH _ t H2). lia.
Qed.

Lemma skipn_app_le {A : Type} (k : nat) (s t : list A) :
  k <= length s -> skipn k (s ++ t) = skipn k s ++ t.
Proof.
  intros H. rewrite skipn_app.
  replace (k - length s) with 0 by lia. reflexivity.
Qed.

(** An occurrence inside a segment of a text is an occurrence in the
    text. *)
Lemma occurrence_in_segment (l pre mid post : str) (j : nat) :
  l <> [] ->
  startswith l (skipn j mid) = true ->
  startswith l (skipn (length pre + j) (pre ++ mid ++ post)) = true /\
  j + length l <= length mid.
Proof.
  intros Hl H.
  assert (Hj : j + length l <= length mid).
  { apply startswith_length in H. rewrite length_skipn in H.
    destruct l; [congruence|]. simpl in *. lia. }
  split; [|exact Hj].
  rewrite skipn_app.
  replace (length pre + j - length pre) with j by lia.
  rewrite (skipn_all2 pre) by lia. simpl.
  rewrite skipn_app. apply startswith_app_r. exact H.
Qed.

Lemma find_none (sub s : str) :
  find sub s = None -> forall j, startswith sub (skipn j s) = false.
Proof.
  intros H j. destruct (startswith sub (skipn j s)) eqn:E; [|reflexivity].
  destruct (find_startswith sub s j E) as (i & Hi & _). congruence.
Qed.

(** The first occurrence stays the first when the text goes on. *)
Lemma find_app (sub s t : str) (i : nat) :
  find sub s = Some i -> find sub (s ++ t) = Some i.
Proof.
  intros H. apply find_spec in H. destruct H as (Hi & Hs & Hfirst).
  assert (Hs' : startswith sub (skipn i (s ++ t)) = true)
    by (rewrite skipn_app_le by exact Hi; apply startswith_app_r, Hs).
  destruct (find_startswith sub (s ++ t) i Hs') as (i' & Hi' & Hle).
  rewrite Hi'. f_equal.
  destruct (Nat.eq_dec i' i) as [E|E]; [exact E|exfalso].
  apply find_spec in Hi'. destruct Hi' as (_ & O & _).
  rewrite skipn_app_le in O by lia.
  apply startswith_app_inv in O.
  - rewrite Hfirst in O; [discriminate|lia].
  - apply startswith_length in Hs. rewrite length_skipn in *. lia.
Qed.

Lemma lstrip_suffix (s : str) : exists pre, s = pre ++ lstrip s.
Proof.
  induction s as [|c s IH]; [exists []; reflexivity|].
  simpl. destruct (isspace c); [|exists []; reflexivity].
  destruct IH as [pre IH]. exists (c :: pre). simpl. now rewrite <- IH.
Qed.

Lemma lstrip_head (s : str) (c : N) (s' : str) :
  lstrip s = c :: s' -> isspace c = false.
Proof.
  induction s as [|x s IH]; [discriminate|].
  simpl. destruct (isspace x) eqn:E; [exact IH|].
  intros H. inversion H; subst. exact E.
Qed.

Lemma rstrip_prefix (s : str) : exists post, s = rstrip s ++ post.
Proof.
  unfold rstrip. destruct (lstrip_suffix (rev s)) as [pre H].
  exists (rev pre). rewrite <- rev_app_distr, <- H. now rewrite rev_involutive.
Qed.

Lemma rstrip_last (s : str) (c : N) (s' : str) :
  rstrip s = s' ++ [c] -> isspace c = false.
Proof.
  unfold rstrip. intros H.
  apply (f_equal (@rev N)) in H. rewrite rev_involutive, rev_app_distr in H.
  simpl in H. exact (lstrip_head _ _ _ H).
Qed.

(** The trimmed text is a segment of the text, with no white space at
    either end. *)
Lemma strip_segment (s : str) : exists pre post, s = pre ++ strip s ++ post.
Proof.
  unfold strip. destruct (lstrip_suffix s) as [pre H1].
  destruct (rstrip_prefix (lstrip s)) as [post H2].
  exists pre, post. now rewrite <- H2.
Qed.

Lemma strip_no_outer_space (s : str) : no_outer_space (strip s).
Proof.
  unfold strip. split; intros c s' H.
  - destruct (rstrip_prefix (lstrip s)) as [post H2].
    rewrite H in H2. simpl in H2. exact (lstrip_head _ _ _ H2).
  - exact (rstrip_last _ _ _ H).
Qed.

Lemma startswith_char (c : N) (s : str) (x : nat) :
  startswith [c] (skipn x s) = true -> nth_error s x = Some c.
Proof.
  revert s. induction x as [|x IH]; intros [|y s] H; try discriminate.
  - simpl in H. rewrite andb_true_r in H. apply N.eqb_eq in H. now subst.
  - simpl. apply IH. exact H.
Qed.

Lemma nth_error_startswith (c : N) (s : str) (x : nat) :
  nth_error s x = Some c -> startswith [c] (skipn x s) = true.
Proof.
  revert s. induction x as [|x IH]; intros [|y s] H; try discriminate.
  - simpl in H. inversion H; subst. simpl. now rewrite N.eqb_refl.
  - simpl. apply IH. exact H.
Qed.

End SegmentFacts.

(** ** More on the scan *)

Section ScanFacts.

Lemma scan_none (p : pattern) :
  forall s pos skip,
    (forall k, k <= length s -> match_at p (pos + k) (skipn k s) = None) ->
    scan p pos skip s = [].
Proof.
  induction s as [|c s' IH]; intros pos skip H.
  - destruct skip; simpl; [|reflexivity].
    pose proof (H 0 (Nat.le_refl _)) as H0. rewrite Nat.add_0_r in H0.
    simpl in H0. now rewrite H0.
  - assert (Hrec : forall sk, scan p (S pos) sk s' = []).
    { intros sk. apply IH. intros k Hk.
      pose proof (H (S k) ltac:(simpl; lia)) as Hk'.
      now replace (pos + S k) with (S pos + k) in Hk' by lia. }
    destruct skip; simpl; [|apply Hrec].
    pose proof (H 0 ltac:(lia)) as H0. rewrite Nat.add_0_r in H0.
    simpl in H0. rewrite H0. apply Hrec.
Qed.



Lemma lazy_inv (q : pattern) (s : str) :
  forall pos r,
    match_at (ILazy AAny :: q) pos s = Some r ->
    exists j, j <= length s /\ match_at q (pos + j) (skipn j s) = Some r.
Proof.
  induction s as [|c s' IH]; intros pos r H; rewrite match_at_lazy in H.
  - destruct (match_at q pos []) as [r'|] eqn:T; [|discriminate].
    exists 0. rewrite Nat.add_0_r. split; [lia|]. simpl. congruence.
  - destruct (match_at q pos (c :: s')) as [r'|] eqn:T.
    + exists 0. rewrite Nat.add_0_r. split; [lia|]. simpl. congruence.
    + cbn [accepts] in H. apply IH in H. destruct H as (j & Hj & H).
      exists (S j). split; [simpl; lia|].
      now replace (pos + S j) with (S pos + j) by lia.
Qed.

Lemma lazy_complete (q : pattern) (s : str) :
  forall pos j,
    j <= length s -> match_at q (pos + j) (skipn j s) <> None ->
    match_at (ILazy AAny :: q) pos s <> None.
Proof.
  induction s as [|c s' IH]; intros pos j Hj H; rewrite match_at_lazy.
  - assert (j = 0) by (simpl in Hj; lia). subst j.
    rewrite Nat.add_0_r in H. simpl in H.
    destruct (match_at q pos []); [discriminate|contradiction].
  - destruct (match_at q pos (c :: s')) eqn:T; [discriminate|].
    destruct j as [|j].
    + rewrite Nat.add_0_r in H. simpl in H. congruence.
    + cbn [accepts]. apply (IH (S pos) j); [simpl in Hj; lia|].
      now replace (S pos + j) with (pos + S j) by lia.
Qed.

Lemma group0_app (p : pattern) (text more : str) (m : match_obj) :
  In m (finditer p text) -> group0 (text ++ more) m = group0 text m.
Proof.
  intros H. apply finditer_In in H. destruct H as [Hs H].
  apply match_at_bounds in H. rewrite length_skipn in H.
  unfold group0, slice. rewrite skipn_app_le by exact Hs.
  rewrite firstn_app, length_skipn.
  match goal with
  | |- _ ++ firstn ?n _ = _ => replace n with 0 by lia
  end.
  cbn [firstn]. apply app_nil_r.
Qed.

End ScanFacts.

(** ** Stretches without choice *)

Section StretchFacts.

Lemma eat_greedy (a : atom) (D : pattern) (s : str) :
  eat (IGreedy a :: D) s =
  match s with
  | c :: s' =>
      if accepts a c then option_map S (eat (IGreedy a :: D) s') else eat D s
  | [] => eat D s
  end.
Proof. destruct s; reflexivity. Qed.

Lemma disjoint_sound (a b : atom) (c : N) :
  disjoint a b = true -> accepts a c = true -> accepts b c = false.
Proof.
  destruct a as [x| |], b as [y| |]; simpl; try discriminate.
  - intros H Hx. apply N.eqb_eq in Hx. subst c.
    destruct (N.eqb y x) eqn:E; [|reflexivity].
    apply N.eqb_eq in E. subst y. rewrite N.eqb_refl in H. discriminate.
  - intros H Hs. destruct (N.eqb y c) eqn:E; [|reflexivity].
    apply N.eqb_eq in E. subst y. rewrite Hs in H. discriminate.
Qed.

(** A crisp stretch at the head of a pattern: what it eats, then the
    rest. *)
Lemma eat_match (q : pattern) :
  forall D, crisp D = true ->
  forall pos s,
    match_at (D ++ q) pos s =
    match eat D s with
    | Some n => match_at q (pos + n) (skipn n s)
    | None => None
    end.
Proof.
  induction D as [|it D IH]; intros HD pos s.
  - simpl. now rewrite Nat.add_0_r.
  - destruct it as [a|a|a|]; try discriminate.
    + simpl in HD. specialize (IH HD).
      cbn [app match_at eat]. destruct s as [|c s']; [reflexivity|].
      destruct (accepts a c); [|reflexivity].
      rewrite IH. destruct (eat D s') as [n|]; [|reflexivity].
      cbn [option_map skipn]. now replace (pos + S n) with (S pos + n) by lia.
    + cbn [crisp] in HD. apply andb_prop in HD. destruct HD as [Hd HD].
      specialize (IH HD).
      destruct D as [|[b| | |] D']; try discriminate.
      revert pos. induction s as [|c s' IHs]; intros pos;
        cbn [app]; rewrite match_at_greedy, eat_greedy.
      * exact (IH pos []).
      * destruct (accepts a c) eqn:A; [|exact (IH pos (c :: s'))].
        cbn [app] in IHs. rewrite IHs.
        destruct (eat (IGreedy a :: IOne b :: D') s') as [n|]; cbn [option_map].
        -- cbn [skipn]. replace (pos + S n) with (S pos + n) by lia.
           destruct (match_at q (S pos + n) (skipn n s')); [reflexivity|].
           cbn [match_at]. now rewrite (disjoint_sound _ _ _ Hd A).
        -- cbn [match_at]. now rewrite (disjoint_sound _ _ _ Hd A).
Qed.

(** What a crisp stretch eats is decided by the characters it eats. *)
Lemma eat_local :
  forall D, crisp D = true ->
  forall s n,
    eat D s = Some n ->
    n <= length s /\ forall u, eat D (firstn n s ++ u) = Some n.
Proof.
  induction D as [|it D IH]; intros HD s n H.
  - simpl in H. inversion H; subst. split; [lia|reflexivity].
  - destruct it as [a|a|a|]; try discriminate.
    + simpl in HD. specialize (IH HD). cbn [eat] in H.
      destruct s as [|c s']; [discriminate|].
      destruct (accepts a c) eqn:A; [|discriminate].
      destruct (eat D s') as [n'|] eqn:E; [|discriminate].
      inversion H; subst n. destruct (IH _ _ E) as [Hn Hu].
      split; [simpl; lia|]. intros u. cbn [firstn app eat].
      now rewrite A, Hu.
    + cbn [crisp] in HD. apply andb_prop in HD. destruct HD as [Hd HD].
      specialize (IH HD).
      destruct D as [|[b| | |] D']; try discriminate.
      revert n H. induction s as [|c s' IHs]; intros n H;
        rewrite eat_greedy in H.
      * discriminate.
      * destruct (accepts a c) eqn:A.
        -- destruct (eat (IGreedy a :: IOne b :: D') s') as [n'|] eqn:E;
             [|discriminate].
           inversion H; subst n. destruct (IHs _ eq_refl) as [Hn Hu].
           split; [simpl; lia|]. intros u. cbn [firstn app].
           now rewrite eat_greedy, A, Hu.
        -- destruct (IH _ _ H) as [Hn Hu]. split; [exact Hn|].
           intros u. destruct n as [|n].
           { cbn [eat] in H. destruct (accepts b c); [|discriminate].
             destruct (eat D' s'); discriminate. }
           cbn [firstn app]. rewrite eat_greedy, A.
           exact (Hu u).
Qed.

Lemma eat_app (D : pattern) (s t : str) (n : nat) :
  crisp D = true -> eat D s = Some n -> eat D (s ++ t) = Some n.
Proof.
  intros HD H. destruct (eat_local D HD s n H) as [Hn Hu].
  rewrite <- (firstn_skipn n s) at 1. rewrite <- app_assoc. apply Hu.
Qed.

Lemma eat_app_inv (D : pattern) (s t : str) (n : nat) :
  crisp D = true -> eat D (s ++ t) = Some n -> n <= length s ->
  eat D s = Some n.
Proof.
  intros HD H Hn. destruct (eat_local D HD _ n H) as [_ Hu].
  rewrite firstn_app in Hu. replace (n - length s) with 0 in Hu by lia.
  cbn [firstn] in Hu. rewrite app_nil_r in Hu.
  specialize (Hu (skipn n s)). now rewrite firstn_skipn in Hu.
Qed.

(** Every character a stretch eats is accepted by one of its atoms. *)
Lemma eat_touches :
  forall D s n,
    eat D s = Some n ->
    forall i c, i < n -> nth_error s i = Some c -> touches D c = true.
Proof.
  induction D as [|it D IH]; intros s n H i c Hi Hc.
  - simpl in H. inversion H; subst. lia.
  - destruct it as [a|a|a|]; try discriminate.
    + cbn [eat] in H. destruct s as [|x s']; [discriminate|].
      destruct (accepts a x) eqn:A; [|discriminate].
      destruct (eat D s') as [n'|] eqn:E; [|discriminate].
      inversion H; subst n. unfold touches. cbn [existsb].
      destruct i as [|i]; simpl in Hc.
      * inversion Hc; subst x. now rewrite A.
      * apply orb_true_iff. right. apply (IH _ _ E i c); [lia|exact Hc].
    + revert n i H Hi Hc. induction s as [|x s' IHs]; intros n i H Hi Hc;
        rewrite eat_greedy in H.
      * destruct i; discriminate.
      * unfold touches. cbn [existsb]. apply orb_true_iff.
        destruct (accepts a x) eqn:A.
        -- destruct (eat (IGreedy a :: D) s') as [n'|] eqn:E; [|discriminate].
           inversion H; subst n. destruct i as [|i]; simpl in Hc.
           ++ inversion Hc; subst x. left. exact A.
           ++ pose proof (IHs n' i eq_refl ltac:(lia) Hc) as T.
              unfold touches in T. cbn [existsb] in T.
              apply orb_true_iff in T. exact T.
        -- right. exact (IH _ _ H i c Hi Hc).
Qed.

End StretchFacts.

(** ** Patterns under more text *)

Section SteadyFacts.

(** The matches of a steady pattern in a text are the first matches in
    every text it is the beginning of. *)
Lemma steady_scan_app (p : pattern) (t : str) :
  steady p ->
  forall s pos skip,
    exists later, scan p pos skip (s ++ t) = scan p pos skip s ++ later.
Proof.
  intros [Hsome Hnew]. induction s as [|c s' IH]; intros pos skip.
  - destruct skip as [|skip];
      [|exists (scan p pos (S skip) t); reflexivity].
    cbn [scan]. destruct (match_at p pos []) as [[e ms]|] eqn:M.
    + pose proof (Hsome pos [] t _ M) as M'. cbn [app] in *.
      destruct t as [|c t']; cbn [scan]; rewrite M'; eexists; reflexivity.
    + eexists. reflexivity.
  - destruct skip as [|skip]; cbn [scan app]; [|apply IH].
    destruct (match_at p pos (c :: s')) as [[e ms]|] eqn:M.
    + pose proof (Hsome pos _ t _ M) as M'. cbn [app] in M'.
      rewrite M'. destruct (IH (S pos) (e - pos - 1)) as [later ->].
      exists later. reflexivity.
    + destruct (match_at p pos (c :: s' ++ t)) as [[e ms]|] eqn:M'.
      * rewrite (scan_none p s' (S pos) 0).
        -- eexists. reflexivity.
        -- intros k Hk.
           pose proof (Hnew pos (c :: s') t M) as N.
           cbn [app] in N. rewrite M' in N.
           specialize (N ltac:(discriminate) (S k) ltac:(simpl; lia)).
           now replace (pos + S k) with (S pos + k) in N by lia.
      * apply IH.
Qed.

Lemma steady_finditer_app (p : pattern) (text more : str) :
  steady p ->
  exists later, finditer p (text ++ more) = finditer p text ++ later.
Proof. intros H. apply steady_scan_app, H. Qed.

End SteadyFacts.

(** ** The DeepSeek pattern under more text *)

Section BlockFacts.

Lemma ds_match_parts (text : str) (m : match_obj) :
  In m (finditer DS.tool_call_block_re text) ->
  exists i,
    m_start m <= length text /\
    startswith DS.call_begin (skipn (m_start m) text) = true /\
    find DS.call_end (skipn (m_start m + length DS.call_begin) text) = Some i /\
    m_end m = m_start m + length DS.call_begin + i + length DS.call_end /\
    m_marks m = [m_start m + length DS.call_begin;
                 m_start m + length DS.call_begin + i].
Proof.
  intros H. apply finditer_In in H. destruct H as [Hs H].
  rewrite ds_match_at in H.
  destruct (startswith DS.call_begin (skipn (m_start m) text)) eqn:B;
    [|discriminate].
  rewrite skipn_skipn in H.
  replace (length DS.call_begin + m_start m)
    with (m_start m + length DS.call_begin) in H by lia.
  destruct (find DS.call_end _) as [i|] eqn:F; [|discriminate].
  cbv zeta in H. inversion H. exists i. auto.
Qed.

(** A begin marker with no end marker after it makes no block. *)
Lemma ds_no_end_no_block (text : str) (i : nat) :
  find DS.calls_begin text = Some i ->
  find DS.calls_end (skipn (i + length DS.calls_begin) text) = None ->
  finditer DS.tool_call_block_re text = [].
Proof.
  intros HB HE. apply scan_none. intros k Hk. rewrite ds_match_at.
  cbn [Nat.add].
  destruct (startswith DS.call_begin (skipn k text)) eqn:B; [|reflexivity].
  apply find_spec in HB. destruct HB as (_ & _ & Hfirst).
  assert (Hik : i <= k).
  { destruct (le_lt_dec i k) as [L|L]; [exact L|].
    apply Hfirst in L. unfold DS.call_begin in B. congruence. }
  destruct (find DS.call_end
              (skipn (length DS.call_begin) (skipn k text))) as [j|] eqn:Fj;
    [|reflexivity].
  exfalso.
  assert (Q : find DS.call_end
                (skipn (k - i) (skipn (i + length DS.calls_begin) text))
              <> None).
  { rewrite !skipn_skipn in *.
    replace (k - i + (i + length DS.calls_begin))
      with (length DS.call_begin + k) by (unfold DS.call_begin; lia).
    congruence. }
  apply find_skipn in Q. apply Q. exact HE.
Qed.

Lemma ds_match_app (pos : nat) (s t : str) (r : nat * list nat) :
  match_at DS.tool_call_block_re pos s = Some r ->
  match_at DS.tool_call_block_re pos (s ++ t) = Some r.
Proof.
  rewrite !ds_match_at.
  destruct (startswith DS.call_begin s) eqn:B; [|discriminate].
  rewrite (startswith_app_r _ _ t B).
  rewrite skipn_app_le by (apply startswith_length, B).
  destruct (find DS.call_end (skipn (length DS.call_begin) s)) as [i|] eqn:F;
    [|discriminate].
  now rewrite (find_app _ _ t _ F).
Qed.

(** Where more text completes a block, the text so far has no block from
    there on. *)
Lemma ds_match_new (pos : nat) (s t : str) :
  match_at DS.tool_call_block_re pos s = None ->
  match_at DS.tool_call_block_re pos (s ++ t) <> None ->
  forall k, k <= length s ->
    match_at DS.tool_call_block_re (pos + k) (skipn k s) = None.
Proof.
  intros Hs Hst k Hk. rewrite ds_match_at in *.
  destruct (startswith DS.call_begin (skipn k s)) eqn:Bk; [|reflexivity].
  destruct (find DS.call_end (skipn (length DS.call_begin) (skipn k s)))
    as [j|] eqn:Fk; [exfalso|reflexivity].
  destruct (startswith DS.call_begin (s ++ t)) eqn:Bst; [|congruence].
  assert (Hlen : length DS.call_begin <= length s).
  { apply startswith_length in Bk. rewrite length_skipn in Bk. lia. }
  rewrite (startswith_app_inv _ _ _ Bst Hlen) in Hs.
  destruct (find DS.call_end (skipn (length DS.call_begin) s)) eqn:F;
    [discriminate|].
  revert F. apply (find_skipn _ _ k). rewrite skipn_skipn.
  rewrite skipn_skipn in Fk.
  replace (k + length DS.call_begin) with (length DS.call_begin + k) by lia.
  congruence.
Qed.

Lemma ds_steady : steady DS.tool_call_block_re.
Proof. split; [exact ds_match_app|exact ds_match_new]. Qed.

Lemma ds_group1_app (text more : str) (m : match_obj) :
  In m (finditer DS.tool_call_block_re text) ->
  group1 (text ++ more) m = group1 text m.
Proof.
  intros H. apply ds_match_parts in H.
  destruct H as (i & Hs & HB & HE & _ & Hmarks).
  unfold group1, slice. rewrite Hmarks.
  apply startswith_length in HB. rewrite length_skipn in HB.
  apply find_spec in HE. destruct HE as (Hi & _). rewrite length_skipn in Hi.
  assert (L : 0 < length DS.call_begin) by (vm_compute; lia).
  rewrite skipn_app_le by lia.
  rewrite firstn_app, length_skipn.
  match goal with
  | |- _ ++ firstn ?n _ = _ => replace n with 0 by lia
  end.
  cbn [firstn]. apply app_nil_r.
Qed.

Lemma ds_findall_app (text more : str) :
  exists later, DS.findall (text ++ more) = DS.findall text ++ later.
Proof.
  unfold DS.findall.
  destruct (steady_finditer_app _ text more ds_steady) as [later ->].
  exists (map (group1 (text ++ more)) later). rewrite map_app. f_equal.
  apply map_ext_in. intros m Hm. apply ds_group1_app, Hm.
Qed.

End BlockFacts.

(** ** The Phi-4 pattern by its stretches *)

Section Phi4PatternFacts.

Lemma phi4_regex_parts :
  Phi4.TOOL_CALL_REGEX
  = phi4_head ++ ILazy AAny :: phi4_mid ++ phi4_last.
Proof. reflexivity. Qed.

Lemma phi4_head_crisp : crisp phi4_head = true.
Proof. reflexivity. Qed.

Lemma phi4_mid_crisp : crisp phi4_mid = true.
Proof. reflexivity. Qed.

(** Anything, lazily, up to a closing brace: the first closing brace. *)
Lemma lazy_brace (s : str) :
  forall pos,
    match_at [ILazy AAny; IOne (AChar 125)] pos s =
    match find [125%N] s with
    | Some i => Some (pos + i + 1, [])
    | None => None
    end.
Proof.
  induction s as [|c s' IH]; intros pos; rewrite match_at_lazy.
  - reflexivity.
  - cbn [match_at accepts find startswith]. rewrite andb_true_r.
    destruct (N.eqb 125 c).
    + do 2 f_equal. lia.
    + rewrite IH. destruct (find [125%N] s') as [i|]; [|reflexivity].
      cbn [option_map]. do 2 f_equal. lia.
Qed.

Lemma phi4_last_at (s : str) :
  forall pos,
    match_at phi4_last pos s =
    match find [125%N] s with
    | Some i => Some (pos + i + 1, [])
    | None => None
    end.
Proof.
  unfold phi4_last, Phi4.ws.
  induction s as [|c s' IH]; intros pos; rewrite match_at_greedy.
  - apply lazy_brace.
  - destruct (accepts ASpace c) eqn:A; [|apply lazy_brace].
    rewrite IH. cbn [find startswith]. rewrite andb_true_r.
    assert (E : N.eqb 125 c = false).
    { destruct (N.eqb 125 c) eqn:E; [|reflexivity].
      apply N.eqb_eq in E. subst c. discriminate. }
    rewrite E. destruct (find [125%N] s') as [i|] eqn:F.
    + cbn [option_map]. do 2 f_equal. lia.
    + rewrite lazy_brace. cbn [find startswith]. rewrite andb_true_r, E, F.
      reflexivity.
Qed.

Lemma phi4_tail_at (pos : nat) (s : str) :
  match_at (phi4_mid ++ phi4_last) pos s =
  match eat phi4_mid s with
  | Some n =>
      match find [125%N] (skipn n s) with
      | Some i => Some (pos + n + i + 1, [])
      | None => None
      end
  | None => None
  end.
Proof.
  rewrite (eat_match phi4_last phi4_mid phi4_mid_crisp).
  destruct (eat phi4_mid s) as [n|]; [|reflexivity]. apply phi4_last_at.
Qed.

(** A match of the tail ends with a closing brace. *)
Lemma phi4_tail_end (pos : nat) (s : str) (e : nat) (ms : list nat) :
  match_at (phi4_mid ++ phi4_last) pos s = Some (e, ms) ->
  exists x, nth_error s x = Some 125%N /\ e = pos + x + 1.
Proof.
  rewrite phi4_tail_at.
  destruct (eat phi4_mid s) as [n|]; [|discriminate].
  destruct (find [125%N] (skipn n s)) as [i|] eqn:F; [|discriminate].
  intros H. inversion H; subst. exists (n + i). split; [|lia].
  apply find_spec in F. destruct F as (_ & F & _).
  rewrite skipn_skipn in F. apply startswith_char.
  now replace (n + i) with (i + n) by lia.
Qed.

Lemma phi4_tail_app (pos : nat) (s t : str) (r : nat * list nat) :
  match_at (phi4_mid ++ phi4_last) pos s = Some r ->
  match_at (phi4_mid ++ phi4_last) pos (s ++ t) = Some r.
Proof.
  rewrite !phi4_tail_at.
  destruct (eat phi4_mid s) as [n|] eqn:E; [|discriminate].
  rewrite (eat_app _ _ t _ phi4_mid_crisp E).
  destruct (eat_local _ phi4_mid_crisp _ _ E) as [Hn _].
  rewrite skipn_app_le by exact Hn.
  destruct (find [125%N] (skipn n s)) as [i|] eqn:F; [|discriminate].
  now rewrite (find_app _ _ t _ F).
Qed.

(** Where the tail fails although a closing brace is to come, it fails
    whatever the text goes on with. *)
Lemma phi4_tail_none_app (pos : nat) (s t : str) (x : nat) :
  match_at (phi4_mid ++ phi4_last) pos s = None ->
  nth_error s x = Some 125%N ->
  match_at (phi4_mid ++ phi4_last) pos (s ++ t) = None.
Proof.
  rewrite !phi4_tail_at. intros H Hx.
  assert (Hlt : x < length s) by (apply nth_error_Some; congruence).
  destruct (eat phi4_mid s) as [n|] eqn:E.
  - exfalso.
    destruct (le_lt_dec n x) as [L|L].
    + apply nth_error_startswith in Hx.
      replace x with ((x - n) + n) in Hx by lia.
      rewrite <- skipn_skipn in Hx.
      destruct (find_startswith _ _ _ Hx) as (i & Hi & _).
      rewrite Hi in H. discriminate.
    + pose proof (eat_touches _ _ _ E x _ L Hx). discriminate.
  - destruct (eat phi4_mid (s ++ t)) as [n|] eqn:E'; [exfalso|reflexivity].
    destruct (le_lt_dec n (length s)) as [L|L].
    + rewrite (eat_app_inv _ _ _ _ phi4_mid_crisp E' L) in E. discriminate.
    + assert (Hx' : nth_error (s ++ t) x = Some 125%N)
        by (rewrite nth_error_app1; assumption).
      pose proof (eat_touches _ _ _ E' x _ ltac:(lia) Hx'). discriminate.
Qed.

Lemma phi4_lazy_end (s : str) :
  forall pos e ms,
    match_at (ILazy AAny :: phi4_mid ++ phi4_last) pos s = Some (e, ms) ->
    exists x, nth_error s x = Some 125%N.
Proof.
  induction s as [|c s' IH]; intros pos e ms H; rewrite match_at_lazy in H.
  - destruct (match_at (phi4_mid ++ phi4_last) pos []) as [[e' ms']|] eqn:T;
      [|discriminate].
    apply phi4_tail_end in T. destruct T as (x & Hx & _). eauto.
  - destruct (match_at (phi4_mid ++ phi4_last) pos (c :: s')) as [[e' ms']|]
      eqn:T.
    + apply phi4_tail_end in T. destruct T as (x & Hx & _). eauto.
    + cbn [accepts] in H. apply IH in H. destruct H as [x Hx].
      exists (S x). exact Hx.
Qed.

Lemma phi4_lazy_app (t : str) (s : str) :
  forall pos r,
    match_at (ILazy AAny :: phi4_mid ++ phi4_last) pos s = Some r ->
    match_at (ILazy AAny :: phi4_mid ++ phi4_last) pos (s ++ t) = Some r.
Proof.
  induction s as [|c s' IH]; intros pos r H;
    rewrite match_at_lazy in H; rewrite match_at_lazy.
  - destruct (match_at (phi4_mid ++ phi4_last) pos []) as [r'|] eqn:T;
      [|discriminate].
    now rewrite (phi4_tail_app _ _ t _ T).
  - destruct (match_at (phi4_mid ++ phi4_last) pos (c :: s')) as [r'|] eqn:T.
    + now rewrite (phi4_tail_app _ _ t _ T).
    + cbn [accepts] in H. destruct r as [e ms].
      destruct (phi4_lazy_end _ _ _ _ H) as [x Hx].
      rewrite (phi4_tail_none_app pos (c :: s') t (S x) T Hx).
      cbn [app accepts]. exact (IH _ _ H).
Qed.

Lemma phi4_match_eq (pos : nat) (s : str) :
  match_at Phi4.TOOL_CALL_REGEX pos s =
  match eat phi4_head s with
  | Some n =>
      match_at (ILazy AAny :: phi4_mid ++ phi4_last) (pos + n) (skipn n s)
  | None => None
  end.
Proof.
  rewrite phi4_regex_parts. apply (eat_match _ phi4_head phi4_head_crisp).
Qed.

(** A candidate of the Phi-4 pattern holds a closing brace. *)
Lemma phi4_no_brace_no_candidate (text : str) :
  find [125%N] text = None -> finditer Phi4.TOOL_CALL_REGEX text = [].
Proof.
  intros H. apply scan_none. intros k Hk. cbn [Nat.add].
  destruct (match_at Phi4.TOOL_CALL_REGEX k (skipn k text)) as [[e ms]|] eqn:M;
    [exfalso|reflexivity].
  rewrite phi4_match_eq in M.
  destruct (eat phi4_head (skipn k text)) as [n|]; [|discriminate].
  apply phi4_lazy_end in M. destruct M as [x Hx].
  apply nth_error_startswith in Hx. rewrite !skipn_skipn in Hx.
  pose proof (find_none _ _ H (x + n + k)) as N. congruence.
Qed.

(** The head has one opening brace, its first character. *)
Lemma phi4_head_brace (s : str) (n k : nat) :
  eat phi4_head s = Some n -> 0 < k < n -> nth_error s k <> Some 123%N.
Proof.
  change phi4_head with (IOne (AChar 123) :: tl phi4_head).
  cbn [eat]. destruct s as [|c s']; [discriminate|].
  destruct (accepts (AChar 123) c); [|discriminate].
  destruct (eat (tl phi4_head) s') as [n'|] eqn:E; [|discriminate].
  intros H Hk Hc. inversion H; subst n.
  destruct k as [|k]; [lia|]. simpl in Hc.
  pose proof (eat_touches _ _ _ E k _ ltac:(lia) Hc). discriminate.
Qed.

Lemma phi4_head_first (s : str) (n : nat) :
  eat phi4_head s = Some n -> nth_error s 0 = Some 123%N.
Proof.
  change phi4_head with (IOne (AChar 123) :: tl phi4_head).
  cbn [eat]. destruct s as [|c s']; [discriminate|].
  cbn [accepts]. destruct (N.eqb 123 c) eqn:E; [|discriminate].
  apply N.eqb_eq in E. now subst.
Qed.

Lemma phi4_steady : steady Phi4.TOOL_CALL_REGEX.
Proof.
  split.
  - intros pos s t r. rewrite !phi4_match_eq.
    destruct (eat phi4_head s) as [n|] eqn:E; [|discriminate].
    rewrite (eat_app _ _ t _ phi4_head_crisp E).
    destruct (eat_local _ phi4_head_crisp _ _ E) as [Hn _].
    rewrite skipn_app_le by exact Hn. apply phi4_lazy_app.
  - intros pos s t Hs Hst k Hk.
    destruct k as [|k]; [now rewrite Nat.add_0_r|].
    destruct (match_at Phi4.TOOL_CALL_REGEX (pos + S k) (skipn (S k) s))
      as [r|] eqn:M; [exfalso|reflexivity].
    rewrite phi4_match_eq in M, Hs, Hst.
    destruct (eat phi4_head (skipn (S k) s)) as [nk|] eqn:Ek; [|discriminate].
    pose proof (phi4_head_first _ _ Ek) as Hb.
    rewrite nth_error_skipn, Nat.add_0_r in Hb.
    assert (Hlt : S k < length s) by (apply nth_error_Some; congruence).
    destruct (eat_local _ phi4_head_crisp _ _ Ek) as [Hnk _].
    rewrite length_skipn in Hnk.
    destruct (eat phi4_head s) as [n|] eqn:E.
    + destruct (le_lt_dec n (S k)) as [L|L];
        [|exact (phi4_head_brace _ _ (S k) E ltac:(lia) Hb)].
      apply lazy_inv in M. destruct M as (j & Hj & M).
      rewrite !length_skipn in Hj. rewrite !skipn_skipn in M.
      revert Hs. apply (lazy_complete _ _ _ (j + nk + S k - n)).
      * rewrite length_skipn. lia.
      * rewrite skipn_skipn.
        replace (j + nk + S k - n + n) with (j + nk + S k) by lia.
        replace (pos + n + (j + nk + S k - n)) with (pos + S k + nk + j)
          by lia.
        rewrite M. discriminate.
    + destruct (eat phi4_head (s ++ t)) as [n|] eqn:E'; [|congruence].
      destruct (le_lt_dec n (length s)) as [L|L].
      * rewrite (eat_app_inv _ _ _ _ phi4_head_crisp E' L) in E. discriminate.
      * apply (phi4_head_brace _ _ (S k) E'); [lia|].
        rewrite nth_error_app1 by lia. exact Hb.
Qed.

Lemma phi4_steady_findall (text more : str) :
  exists later, Phi4.findall (text ++ more) = Phi4.findall text ++ later.
Proof.
  unfold Phi4.findall.
  destruct (steady_finditer_app _ text more phi4_steady) as [later ->].
  exists (map (group0 (text ++ more)) later). rewrite map_app. f_equal.
  apply map_ext_in. intros m Hm. exact (group0_app _ _ _ _ Hm).
Qed.

End Phi4PatternFacts.

(** ** More on calls and sessions *)

Section CallFacts.

Lemma keep_ok_none {A B : Type} (f : A -> option B) (l : list A) :
  (forall x, In x l -> f x = None) -> keep_ok f l = [].
Proof.
  induction l as [|x l IH]; intros H; simpl; [reflexivity|].
  rewrite (H x (or_introl eq_refl)). apply IH.
  intros y Hy. apply H. right. exact Hy.
Qed.

Lemma keep_ok_intro {A B : Type} (f : A -> option B) (l : list A)
    (x : A) (y : B) :
  In x l -> f x = Some y -> In y (keep_ok f l).
Proof.
  induction l as [|z l IH]; simpl; [contradiction|].
  intros [->|H] Hf.
  - rewrite Hf. left. reflexivity.
  - destruct (f z); [right|]; exact (IH H Hf).
Qed.

Lemma last_item_snoc {A : Type} (l : list A) (x : A) :
  last_item (l ++ [x]) = Some x.
Proof.
  induction l as [|y l IH]; [reflexivity|].
  simpl. destruct (l ++ [x]) eqn:E; [destruct l; discriminate|exact IH].
Qed.

Lemma last_item_split {A : Type} (l : list A) (x : A) :
  last_item l = Some x -> exists l', l = l' ++ [x].
Proof.
  induction l as [|y l IH]; [discriminate|].
  destruct l as [|z l].
  - intros H. inversion H; subst. exists []. reflexivity.
  - intros H. destruct (IH H) as [l' ->]. exists (y :: l'). reflexivity.
Qed.

Lemma last_item_In {A : Type} (l : list A) (x : A) :
  last_item l = Some x -> In x l.
Proof.
  intros H. destruct (last_item_split _ _ H) as [l' ->].
  apply in_or_app. right. left. reflexivity.
Qed.

(** The last call kept is the call of the last element, when that one
    decodes. *)
Lemma last_item_keep_ok {A B : Type} (f : A -> option B) (l : list A)
    (x : A) (y : B) :
  last_item l = Some x -> f x = Some y -> last_item (keep_ok f l) = Some y.
Proof.
  intros H Hf. destruct (last_item_split _ _ H) as [l' ->].
  rewrite keep_ok_app. simpl. rewrite Hf. apply last_item_snoc.
Qed.





(** The texts of a session grow: each is the one before with more text
    appended. *)
Lemma session_texts (step : str -> str -> str -> gen (option DeltaMessage)) :
  forall deltas prev n i cur out,
    nth_error (fst (session step prev deltas n)) i = Some (cur, out) ->
    exists x, cur = prev ++ x.
Proof.
  induction deltas as [|d ds IH]; intros prev n i cur out H.
  - destruct i; discriminate.
  - simpl in H. unfold gbind, ret in H.
    destruct (step prev (prev ++ d) d n) as [o n1].
    destruct (session step (prev ++ d) ds n1) as [os n2] eqn:E2.
    simpl in H. destruct i as [|i]; simpl in H.
    + inversion H; subst. exists d. reflexivity.
    + destruct (IH (prev ++ d) n1 i cur out) as [x Hx];
        [rewrite E2; exact H|].
      exists (d ++ x). now rewrite app_assoc.
Qed.

Lemma session_grows (step : str -> str -> str -> gen (option DeltaMessage)) :
  forall deltas prev n i j ci oi cj oj,
    i <= j ->
    nth_error (fst (session step prev deltas n)) i = Some (ci, oi) ->
    nth_error (fst (session step prev deltas n)) j = Some (cj, oj) ->
    exists x, cj = ci ++ x.
Proof.
  induction deltas as [|d ds IH]; intros prev n i j ci oi cj oj Hij Hi Hj.
  - destruct i; discriminate.
  - simpl in Hi, Hj. unfold gbind, ret in Hi, Hj.
    destruct (step prev (prev ++ d) d n) as [o n1].
    pose proof (session_texts step ds (prev ++ d) n1) as T.
    pose proof (IH (prev ++ d) n1) as IH'.
    destruct (session step (prev ++ d) ds n1) as [os n2].
    simpl in Hi, Hj, T, IH'.
    destruct i as [|i], j as [|j]; simpl in Hi, Hj; try lia.
    + inversion Hi; inversion Hj; subst. exists []. now rewrite app_nil_r.
    + inversion Hi; subst. exact (T _ _ _ Hj).
    + apply (IH' i j ci oi cj oj); [lia|exact Hi|exact Hj].
Qed.

(** With a steady pattern and a step decided by the last span, content
    is returned only before the first candidate. *)
Lemma steady_content_first (X : extractor) :
  steady (x_pattern X) -> step_by_last_span X ->
  forall deltas n i j ci cj oi oj f,
    i <= j ->
    nth_error (trace X deltas n) i = Some (ci, oi) ->
    nth_error (trace X deltas n) j = Some (cj, oj) ->
    oj = content_event f ->
    exists f', oi = content_event f'.
Proof.
  intros Hp HX deltas n i j ci cj oi oj f Hij Hi Hj Hc. unfold trace in Hi, Hj.
  destruct (session_grows _ _ _ _ _ _ _ _ _ _ Hij Hi Hj) as [x Hx].
  apply session_nth in Hi. apply session_nth in Hj.
  destruct Hi as (pi_ & di & ki & _ & Hi).
  destruct Hj as (pj & dj & kj & _ & Hj).
  pose proof (HX pj cj dj kj) as Sj. rewrite <- Hj, Hc in Sj.
  assert (Fj : finditer (x_pattern X) cj = []).
  { unfold spans in Sj. rewrite last_item_map in Sj.
    destruct (last_item (finditer (x_pattern X) cj)) as [m|] eqn:L.
    - exfalso. cbn [option_map] in Sj.
      destruct (x_decode X (x_group X cj m)); [|discriminate].
      destruct Sj as (tc & Sj & _). discriminate.
    - now apply last_item_nil in L. }
  assert (Fi : finditer (x_pattern X) ci = []).
  { subst cj. destruct (steady_finditer_app _ ci x Hp) as [later E].
    rewrite Fj in E. symmetry in E. now apply app_eq_nil in E. }
  pose proof (HX pi_ ci di ki) as Si. unfold spans in Si.
  rewrite Fi in Si. cbn [map last_item] in Si.
  exists di. now rewrite Hi.
Qed.

Lemma sample_ids_injective : Injective sample_ids.
Proof.
  intros a b H. unfold sample_ids in H.
  pose proof (decimal_numeral (N.of_nat a)) as (_ & Ha & _).
  pose proof (decimal_numeral (N.of_nat b)) as (_ & Hb & _).
  rewrite H in Ha. rewrite Ha in Hb. now apply Nat2N.inj.
Qed.

End CallFacts.

(** * The claims *)

(** Counterexample to C1 as stated: in the session that receives one complete call
    and then the fragment [" thanks"], the call of span number 0 is emitted
    at the first step and again at the second. *)
Lemma C1_counterexample :
  ~ (forall deltas n,
       emitted_once phi4_extractor (trace phi4_extractor deltas n) /\
       one_call_per_step (trace phi4_extractor deltas n)).
Proof.
  intros H. destruct (H [call_f; lit " thanks"] 0) as [H1 _].
  eapply (H1 0 1 _ _ _ _ 0).
  - lia.
  - vm_compute. reflexivity.
  - vm_compute. reflexivity.
  - split; [vm_compute; discriminate|vm_compute; reflexivity].
  - split; [vm_compute; discriminate|vm_compute; reflexivity].
Qed.

(** C1, amended.  In every streaming session of either extractor, every
    step returns at most one call event; a call event is the call of the
    last candidate span of the step's text, and the same call is emitted
    again at every later step whose text has the same last span. *)
Theorem C1_last_span_reemitted :
  (forall ids, reemits_last_span (ds_extractor ids)) /\
  reemits_last_span phi4_extractor.
Proof.
  split.
  - intros ids. apply last_span_reemitted, ds_step_by_last_span.
  - apply last_span_reemitted, phi4_step_by_last_span.
Qed.

Lemma C1_last_span_reemitted_witness :
  let tr := trace phi4_extractor [call_f; lit " thanks"] 0 in
  let o1 := fst (x_step phi4_extractor call_f (call_f ++ lit " thanks")
                   (lit " thanks") 0) in
  nth_error tr 0 = Some (call_f, call_event (phi4_event 0 record_f)) /\
  nth_error tr 1 = Some (call_f ++ lit " thanks", o1) /\
  last_item (spans phi4_extractor (call_f ++ lit " thanks"))
  = last_item (spans phi4_extractor call_f) /\
  exists tc', call_events o1 = [tc'] /\ function tc' = record_f.
Proof.
  cbv zeta.
  assert (H0 : nth_error (trace phi4_extractor [call_f; lit " thanks"] 0) 0
               = Some (call_f, call_event (phi4_event 0 record_f)))
    by (vm_compute; reflexivity).
  assert (H1 : nth_error (trace phi4_extractor [call_f; lit " thanks"] 0) 1
               = Some (call_f ++ lit " thanks",
                       fst (x_step phi4_extractor call_f
                              (call_f ++ lit " thanks") (lit " thanks") 0)))
    by (vm_compute; reflexivity).
  assert (L : last_item (spans phi4_extractor (call_f ++ lit " thanks"))
              = last_item (spans phi4_extractor call_f))
    by (vm_compute; reflexivity).
  split; [exact H0|]. split; [exact H1|]. split; [exact L|].
  destruct (proj2 C1_last_span_reemitted [call_f; lit " thanks"] 0)
    as [_ H].
  destruct (H 0 _ _ (phi4_event 0 record_f) H0 eq_refl) as [_ H2].
  exact (H2 1 _ _ (le_n 1) H1 L).
Defined.

(** Counterexample to C2 as stated: with two decodable blocks in the text the
    DeepSeek step tags the call of the second block with index 0, not 1. *)
Lemma C2_counterexample : ~ index_is_ordinal (ds_extractor sample_ids).
Proof.
  intros H.
  destruct (H [] (ds_block params_f ++ ds_block params_g) [] 0
              params_g record_pg) as (tc & H1 & _ & H3).
  - vm_compute. reflexivity.
  - vm_compute. reflexivity.
  - vm_compute in H1. inversion H1; subst tc. vm_compute in H3.
    discriminate.
Qed.

(** C2, amended.  When the last candidate span of the current text decodes
    to a call record, the step emits a call event for it; the Phi-4
    (implicit-JSON) step tags it with the number of candidate spans minus
    one, the DeepSeek (tag-delimited) step always with 0. *)
Theorem C2_index_of_emitted_call :
  index_is_ordinal phi4_extractor /\
  (forall ids, index_is_zero (ds_extractor ids)).
Proof.
  split.
  - intros prev cur delta n span r L D.
    change (fst (x_step phi4_extractor prev cur delta n))
      with (Phi4.extract_tool_calls_streaming prev cur delta).
    rewrite phi4_step_eq, L, D. eexists. repeat split.
  - intros ids prev cur delta n span r L D.
    change (x_step (ds_extractor ids))
      with (DS.extract_tool_calls_streaming ids).
    rewrite ds_step_eq, L.
    destruct (loads (strip span)) as [obj|e] eqn:E.
    + rewrite D. eexists. repeat split.
    + simpl in D. rewrite (ds_decode_loads span e E) in D. discriminate.
Qed.

Lemma C2_index_of_emitted_call_witness :
  (let text := call_f ++ lit " and " ++ call_g in
   last_item (spans phi4_extractor text) = Some call_g /\
   x_decode phi4_extractor call_g = Some record_g /\
   exists tc,
     fst (x_step phi4_extractor call_f text (lit " and " ++ call_g) 0)
     = call_event tc /\ function tc = record_g /\ index tc = 2 - 1)
  /\
  (let text := ds_block params_f ++ ds_block params_g in
   last_item (spans (ds_extractor sample_ids) text) = Some params_g /\
   x_decode (ds_extractor sample_ids) params_g = Some record_pg /\
   exists tc,
     fst (x_step (ds_extractor sample_ids) (ds_block params_f) text
            (ds_block params_g) 0)
     = call_event tc /\ function tc = record_pg /\ index tc = 0).
Proof.
  split; cbv zeta.
  - assert (L : last_item (spans phi4_extractor
                             (call_f ++ lit " and " ++ call_g))
                = Some call_g) by (vm_compute; reflexivity).
    assert (D : x_decode phi4_extractor call_g = Some record_g)
      by (vm_compute; reflexivity).
    split; [exact L|]. split; [exact D|].
    exact (proj1 C2_index_of_emitted_call call_f _
             (lit " and " ++ call_g) 0 _ _ L D).
  - assert (L : last_item (spans (ds_extractor sample_ids)
                             (ds_block params_f ++ ds_block params_g))
                = Some params_g) by (vm_compute; reflexivity).
    assert (D : x_decode (ds_extractor sample_ids) params_g
                = Some record_pg) by (vm_compute; reflexivity).
    split; [exact L|]. split; [exact D|].
    exact (proj2 C2_index_of_emitted_call sample_ids (ds_block params_f) _
             (ds_block params_g) 0 _ _ L D).
Defined.

(** C3.  The code at the failing input: in the Phi-4 session that receives
    a first call, the fragment [" and "] and a second call, the events of
    the two different calls carry the same id, the constant
    ["phi4_tool_call_stream"]; the generator is never consulted (the
    session leaves its state where it was). *)
Theorem C3_phi4_constant_id :
  session Phi4.step [] [call_f; lit " and "; call_g] 0 =
  ([(call_f, call_event (phi4_event 0 record_f));
    (call_f ++ lit " and ", call_event (phi4_event 0 record_f));
    (call_f ++ lit " and " ++ call_g, call_event (phi4_event 1 record_g))],
   0)
  /\ id (phi4_event 0 record_f) = id (phi4_event 1 record_g)
  /\ phi4_event 0 record_f <> phi4_event 1 record_g.
Proof.
  split; [vm_compute; reflexivity|]. split; [reflexivity|]. discriminate.
Qed.

(** C4.  The code at the failing input: on a text that begins with a call,
    the Phi-4 extractor returns the call and, as leftover content, the
    empty string and not [None]. *)
Theorem C4_phi4_empty_leftover :
  Phi4.extract_tool_calls call_f =
  Ok {| tools_called := true;
        tool_calls := [function_call record_f];
        content := Some [] |}.
Proof. vm_compute. reflexivity. Qed.

(** C5. When the begin marker is absent from the text (tag-delimited
    extractor), respectively when the structural pattern has no match
    (implicit-JSON extractor), extraction reports no call, an empty list of
    calls, and the whole original text as leftover content. *)
Theorem C5_no_call_syntax (text : str) :
  (contains DS.calls_begin text = false ->
   DS.extract_tool_calls text =
   {| tools_called := false; tool_calls := []; content := Some text |})
  /\
  (Phi4.findall text = [] ->
   Phi4.extract_tool_calls text =
   Ok {| tools_called := false; tool_calls := []; content := Some text |}).
Proof.
  split; intros H.
  - unfold DS.extract_tool_calls. rewrite H. reflexivity.
  - rewrite phi4_extract_eq, H. reflexivity.
Qed.

Lemma C5_no_call_syntax_witness :
  (contains DS.calls_begin (lit "plain prose") = false /\
   DS.extract_tool_calls (lit "plain prose") =
   {| tools_called := false; tool_calls := [];
      content := Some (lit "plain prose") |})
  /\
  (Phi4.findall (lit "plain prose") = [] /\
   Phi4.extract_tool_calls (lit "plain prose") =
   Ok {| tools_called := false; tool_calls := [];
         content := Some (lit "plain prose") |}).
Proof.
  split; (split; [reflexivity|]).
  - apply (proj1 (C5_no_call_syntax (lit "plain prose"))). reflexivity.
  - apply (proj2 (C5_no_call_syntax (lit "plain prose"))). reflexivity.
Defined.

(** C6. For every text and either extractor, the result reports calls
    detected if and only if its list of calls is not empty. *)
Theorem C6_detected_iff_calls (text : str) :
  (tools_called (DS.extract_tool_calls text) = true <->
   tool_calls (DS.extract_tool_calls text) <> [])
  /\
  (exists r, Phi4.extract_tool_calls text = Ok r /\
             (tools_called r = true <-> tool_calls r <> [])).
Proof.
  split.
  - rewrite ds_extract_eq.
    destruct (contains DS.calls_begin text); simpl.
    + apply truthy_iff.
    + split; congruence.
  - rewrite phi4_extract_eq. eexists. split; [reflexivity|].
    simpl. apply truthy_iff.
Qed.



(** Counterexample to C8 as stated: after one complete call the fragment [" thanks"]
    lies outside every candidate block, and the Phi-4 step returns the call
    again instead of the fragment. *)
Lemma C8_counterexample : ~ passes_free_text phi4_extractor.
Proof.
  intros H.
  assert (F : free_text phi4_extractor call_f (lit " thanks")).
  { intros m Hm. vm_compute in Hm. destruct Hm as [<-|[]].
    apply Nat.leb_le. vm_compute. reflexivity. }
  specialize (H call_f (lit " thanks") 0 F). vm_compute in H.
  discriminate.
Qed.

(** C8, amended.  When the current text has no candidate span the step
    emits a content event carrying exactly the incremental fragment; once
    the text has a candidate span the step emits no content: it returns a
    call event or nothing. *)
Theorem C8_content_until_first_span :
  (forall ids, content_until_first_span (ds_extractor ids)) /\
  content_until_first_span phi4_extractor.
Proof.
  assert (G : forall X, step_by_last_span X -> content_until_first_span X).
  { intros X HX prev cur delta n. specialize (HX prev cur delta n). split.
    - intros E. rewrite E in HX. exact HX.
    - intros E. destruct (last_item (spans X cur)) as [span|] eqn:L.
      + destruct (x_decode X span) as [r|].
        * right. destruct HX as (tc & HX & _). eauto.
        * left. exact HX.
      + apply last_item_nil in L. contradiction. }
  split.
  - intros ids. apply G, ds_step_by_last_span.
  - apply G, phi4_step_by_last_span.
Qed.

Lemma C8_content_until_first_span_witness :
  (spans phi4_extractor (lit "so far") = [] /\
   fst (x_step phi4_extractor (lit "so") (lit "so far") (lit " far") 0)
   = content_event (lit " far"))
  /\
  (spans phi4_extractor (call_f ++ lit " thanks") <> [] /\
   (fst (x_step phi4_extractor call_f (call_f ++ lit " thanks")
           (lit " thanks") 0) = None \/
    exists tc,
      fst (x_step phi4_extractor call_f (call_f ++ lit " thanks")
             (lit " thanks") 0) = call_event tc)).
Proof.
  split.
  - assert (E : spans phi4_extractor (lit "so far") = [])
      by (vm_compute; reflexivity).
    split; [exact E|].
    exact (proj1 (proj2 C8_content_until_first_span (lit "so")
                    (lit "so far") (lit " far") 0) E).
  - assert (E : spans phi4_extractor (call_f ++ lit " thanks") <> [])
      by (vm_compute; discriminate).
    split; [exact E|].
    exact (proj2 (proj2 C8_content_until_first_span call_f
                    (call_f ++ lit " thanks") (lit " thanks") 0) E).
Defined.



(** C10. The Phi-4 pattern ends its match at the first closing brace after
    the arguments key.  There is a text that is one valid tool-call object
    whose arguments are a JSON object with a key, on which the only match
    is the text without its last brace; that match does not decode, and the
    extractor reports no call, an empty list of calls and the whole text as
    content. *)
Theorem C10_nested_arguments_lost :
  exists text obj k v d,
    loads text = Ok obj /\
    getitem obj (lit "name") = Ok (JStr (lit "f")) /\
    getitem obj (lit "arguments") = Ok (JObj ((k, v) :: d)) /\
    Phi4.findall text = [removelast text] /\
    loads (removelast text) = Raise JSONDecodeError /\
    Phi4.extract_tool_calls text =
    Ok {| tools_called := false; tool_calls := []; content := Some text |}.
Proof.
  exists call_nested,
    (JObj [(lit "name", JStr (lit "f"));
           (lit "arguments", JObj [(lit "a", JInt 1)])]),
    (lit "a"), (JInt 1), [].
  repeat split; vm_compute; reflexivity.
Qed.

(** * Further properties *)

(** ** The DeepSeek extractor on a finished text *)

(** X1.  Every candidate block of the DeepSeek pattern is the text between
    a begin marker and the first end marker after it: the match is the
    begin marker, the span and the end marker, and the span holds no end
    marker. *)
Theorem ds_block_between_markers (text : str) (m : match_obj) :
  In m (finditer DS.tool_call_block_re text) ->
  exists pre post,
    text = pre ++ ds_block (group1 text m) ++ post /\
    length pre = m_start m /\
    m_end m = m_start m + length (ds_block (group1 text m)) /\
    contains DS.call_end (group1 text m) = false.
Proof.
  intros H. apply ds_match_parts in H.
  destruct H as (i & Hs & HB & HE & Hend & Hmarks).
  set (k := m_start m) in *. set (g := k + length DS.call_begin) in *.
  assert (G : group1 text m = firstn i (skipn g text)).
  { unfold group1, slice. rewrite Hmarks. f_equal. lia. }
  pose proof (find_spec _ _ _ HE) as (Hi & HEs & Hfirst).
  exists (firstn k text), (skipn (length DS.call_end) (skipn i (skipn g text))).
  assert (Hlen : length (group1 text m) = i)
    by (rewrite G; apply firstn_length_le; exact Hi).
  repeat split.
  - rewrite <- (firstn_skipn k text) at 1. f_equal.
    rewrite (startswith_split _ _ HB) at 1.
    unfold ds_block. rewrite <- !app_assoc. f_equal.
    rewrite skipn_skipn.
    replace (length DS.call_begin + k) with g by (unfold g; lia).
    rewrite <- (firstn_skipn i (skipn g text)) at 1. rewrite G. f_equal.
    exact (startswith_split _ _ HEs).
  - apply firstn_length_le. exact Hs.
  - unfold ds_block. rewrite !length_app, Hlen. lia.
  - unfold contains.
    destruct (find DS.call_end (group1 text m)) as [j|] eqn:F; [|reflexivity].
    exfalso. apply find_spec in F. destruct F as (_ & F & _).
    rewrite G in F.
    destruct (occurrence_in_segment DS.call_end [] (firstn i (skipn g text))
                (skipn i (skipn g text)) j ltac:(discriminate) F) as [O Hj].
    cbn [length Nat.add app] in O. rewrite firstn_skipn in O.
    rewrite firstn_length_le in Hj by exact Hi.
    rewrite (Hfirst j) in O; [discriminate|].
    assert (0 < length DS.call_end) by (vm_compute; lia). lia.
Qed.

Lemma ds_block_between_markers_witness :
  let text := lit "see " ++ ds_block params_f ++ lit " ok" in
  let m := {| m_start := 4; m_end := 77; m_marks := [23; 60] |} in
  In m (finditer DS.tool_call_block_re text) /\
  exists pre post,
    text = pre ++ ds_block (group1 text m) ++ post /\
    length pre = m_start m /\
    m_end m = m_start m + length (ds_block (group1 text m)) /\
    contains DS.call_end (group1 text m) = false.
Proof.
  cbv zeta.
  assert (H : In {| m_start := 4; m_end := 77; m_marks := [23; 60] |}
                (finditer DS.tool_call_block_re
                   (lit "see " ++ ds_block params_f ++ lit " ok")))
    by (vm_compute; left; reflexivity).
  split; [exact H|]. exact (ds_block_between_markers _ _ H).
Defined.

(** X2.  A begin marker with no end marker after it: the DeepSeek extractor
    returns no call, and of the text only what stands before the marker,
    trimmed, or [None] when that is blank. *)
Theorem ds_unterminated_block (text : str) (i : nat) :
  find DS.calls_begin text = Some i ->
  find DS.calls_end (skipn (i + length DS.calls_begin) text) = None ->
  DS.extract_tool_calls text =
  {| tools_called := false; tool_calls := [];
     content := trimmed_or_none (firstn i text) |}.
Proof.
  intros HB HE. rewrite ds_extract_eq. unfold contains, DS.findall.
  rewrite HB, (ds_no_end_no_block _ _ HB HE). reflexivity.
Qed.

Lemma ds_unterminated_block_witness :
  let text := lit " wait " ++ DS.calls_begin ++ params_f in
  find DS.calls_begin text = Some 6 /\
  find DS.calls_end (skipn (6 + length DS.calls_begin) text) = None /\
  DS.extract_tool_calls text =
  {| tools_called := false; tool_calls := [];
     content := trimmed_or_none (firstn 6 text) |}.
Proof.
  cbv zeta.
  assert (B : find DS.calls_begin (lit " wait " ++ DS.calls_begin ++ params_f)
              = Some 6) by (vm_compute; reflexivity).
  assert (E : find DS.calls_end
                (skipn (6 + length DS.calls_begin)
                   (lit " wait " ++ DS.calls_begin ++ params_f)) = None)
    by (vm_compute; reflexivity).
  split; [exact B|]. split; [exact E|].
  exact (ds_unterminated_block _ _ B E).
Defined.

(** The instance of X3. *)

Lemma ds_leftover_is_trimmed_prefix_witness :
  let text := lit " see " ++ ds_block params_f in
  tool_calls (DS.extract_tool_calls text) <> [] /\
  exists m ms,
    finditer DS.tool_call_block_re text = m :: ms /\
    content (DS.extract_tool_calls text)
    = trimmed_or_none (text_before text m).
Proof.
  cbv zeta.
  assert (H : tool_calls (DS.extract_tool_calls
                            (lit " see " ++ ds_block params_f)) <> [])
    by (vm_compute; discriminate).
  split; [exact H|]. exact (ds_leftover_is_trimmed_prefix _ H).
Defined.

(** X4.  What the DeepSeek extractor keeps of a text with the begin marker
    is never blank, has no white space at either end and holds no begin
    marker. *)
Theorem ds_content_clean (text c : str) :
  contains DS.calls_begin text = true ->
  content (DS.extract_tool_calls text) = Some c ->
  c <> [] /\ no_outer_space c /\ contains DS.calls_begin c = false.
Proof.
  intros HB. rewrite ds_extract_eq, HB. cbv zeta. cbn [content].
  unfold contains in HB.
  destruct (find DS.calls_begin text) as [i|] eqn:F; [|discriminate].
  destruct (strip (firstn i text)) as [|x c'] eqn:S; [discriminate|].
  cbn [truthy]. intros H. inversion H; subst c. rewrite <- S.
  split; [rewrite S; discriminate|].
  split; [apply strip_no_outer_space|].
  unfold contains.
  destruct (find DS.calls_begin (strip (firstn i text))) as [j|] eqn:G;
    [exfalso|reflexivity].
  apply find_spec in G. destruct G as (_ & G & _).
  destruct (strip_segment (firstn i text)) as (pre & post & Hseg).
  destruct (occurrence_in_segment _ pre _ post j calls_begin_nonempty G)
    as [O Hj].
  rewrite <- Hseg in O.
  assert (Hlen : length pre + j + length DS.calls_begin <= i).
  { apply (f_equal (@length N)) in Hseg. rewrite !length_app in Hseg.
    pose proof (firstn_le_length i text). lia. }
  destruct (occurrence_in_segment _ [] (firstn i text) (skipn i text)
              (length pre + j) calls_begin_nonempty O) as [O' _].
  cbn [length Nat.add app] in O'. rewrite firstn_skipn in O'.
  apply find_spec in F. destruct F as (_ & _ & Hfirst).
  rewrite Hfirst in O'; [discriminate|].
  assert (0 < length DS.calls_begin) by (vm_compute; lia). lia.
Qed.

Lemma ds_content_clean_witness :
  let text := lit "  see below " ++ ds_block params_f in
  contains DS.calls_begin text = true /\
  content (DS.extract_tool_calls text) = Some (lit "see below") /\
  lit "see below" <> [] /\ no_outer_space (lit "see below") /\
  contains DS.calls_begin (lit "see below") = false.
Proof.
  cbv zeta.
  assert (B : contains DS.calls_begin
                (lit "  see below " ++ ds_block params_f) = true)
    by (vm_compute; reflexivity).
  assert (C : content (DS.extract_tool_calls
                         (lit "  see below " ++ ds_block params_f))
              = Some (lit "see below")) by (vm_compute; reflexivity).
  split; [exact B|]. split; [exact C|].
  exact (ds_content_clean _ _ B C).
Defined.



(** ** The DeepSeek step in a session *)

(** X6.  More text never removes a block nor changes it: the blocks of a
    text are, in order, the first blocks of every text it is the beginning
    of. *)
Theorem ds_blocks_persist (text more : str) :
  exists later, DS.findall (text ++ more) = DS.findall text ++ later.
Proof. apply ds_findall_app. Qed.

(** X7.  In a DeepSeek session the content events come first: once a step
    has returned anything else, no later step returns content. *)
Theorem ds_content_comes_first (ids : nat -> str) (deltas : list str)
    (n i j : nat) (ci cj : str) (oi oj : option DeltaMessage) (f : str) :
  i <= j ->
  nth_error (trace (ds_extractor ids) deltas n) i = Some (ci, oi) ->
  nth_error (trace (ds_extractor ids) deltas n) j = Some (cj, oj) ->
  oj = content_event f ->
  exists f', oi = content_event f'.
Proof.
  apply (steady_content_first (ds_extractor ids) ds_steady
           (ds_step_by_last_span ids)).
Qed.

Lemma ds_content_comes_first_witness :
  let tr := trace (ds_extractor sample_ids) [lit "a"; lit "b"] 0 in
  nth_error tr 0 = Some (lit "a", content_event (lit "a")) /\
  nth_error tr 1 = Some (lit "ab", content_event (lit "b")) /\
  exists f', content_event (lit "a") = content_event f'.
Proof.
  cbv zeta.
  assert (H0 : nth_error (trace (ds_extractor sample_ids)
                            [lit "a"; lit "b"] 0) 0
               = Some (lit "a", content_event (lit "a")))
    by (vm_compute; reflexivity).
  assert (H1 : nth_error (trace (ds_extractor sample_ids)
                            [lit "a"; lit "b"] 0) 1
               = Some (lit "ab", content_event (lit "b")))
    by (vm_compute; reflexivity).
  split; [exact H0|]. split; [exact H1|].
  exact (ds_content_comes_first sample_ids _ 0 0 1 _ _ _ _ (lit "b")
           (Nat.le_succ_diag_r 0) H0 H1 eq_refl).
Defined.

(** X23.  While the block that has begun is not closed, the DeepSeek step
    passes the fragment on as content, and draws no id. *)
Theorem ds_open_block_streams_as_content (ids : nat -> str)
    (prev cur delta : str) (n i : nat) :
  find DS.calls_begin cur = Some i ->
  find DS.calls_end (skipn (i + length DS.calls_begin) cur) = None ->
  DS.extract_tool_calls_streaming ids prev cur delta n
  = (content_event delta, n).
Proof.
  intros HB HE. rewrite ds_step_eq. unfold spans.
  cbn [x_pattern ds_extractor].
  now rewrite (ds_no_end_no_block _ _ HB HE).
Qed.

Lemma ds_open_block_streams_as_content_witness :
  let cur := lit "wait " ++ DS.calls_begin ++ jlit "{'name': 'f'" in
  find DS.calls_begin cur = Some 5 /\
  find DS.calls_end (skipn (5 + length DS.calls_begin) cur) = None /\
  DS.extract_tool_calls_streaming sample_ids
    (lit "wait " ++ DS.calls_begin) cur (jlit "{'name': 'f'") 0
  = (content_event (jlit "{'name': 'f'"), 0).
Proof.
  cbv zeta.
  assert (B : find DS.calls_begin
                (lit "wait " ++ DS.calls_begin ++ jlit "{'name': 'f'")
              = Some 5) by (vm_compute; reflexivity).
  assert (E : find DS.calls_end
                (skipn (5 + length DS.calls_begin)
                   (lit "wait " ++ DS.calls_begin ++ jlit "{'name': 'f'"))
              = None) by (vm_compute; reflexivity).
  split; [exact B|]. split; [exact E|].
  exact (ds_open_block_streams_as_content _ _ _ _ _ _ B E).
Defined.

(** X8.  A call the DeepSeek step emits is the last call the extractor
    returns for the same text. *)
Theorem ds_step_agrees_with_extract (ids : nat -> str)
    (prev cur delta : str) (n : nat) (tc : DeltaToolCall) :
  fst (DS.extract_tool_calls_streaming ids prev cur delta n) = call_event tc ->
  exists call,
    last_item (tool_calls (DS.extract_tool_calls cur)) = Some call /\
    tc_function call = function tc /\ tc_type call = dtc_type tc.
Proof.
  rewrite ds_step_eq, ds_tool_calls_eq.
  change (spans (ds_extractor ids) cur) with (DS.findall cur).
  destruct (last_item (DS.findall cur)) as [span|] eqn:L; [|discriminate].
  destruct (loads (strip span)); [|discriminate].
  cbn [fst x_decode ds_extractor].
  destruct (ds_span_call span) as [call|] eqn:D; [|discriminate].
  cbn [option_map]. intros H. inversion H; subst tc. cbn [function dtc_type].
  exists call. split; [exact (last_item_keep_ok _ _ _ _ L D)|].
  split; [reflexivity|].
  unfold ds_span_call, DS.parse_call, FunctionCall in D.
  destruct (loads (strip span)) as [obj|]; simpl in D; [|discriminate].
  destruct (getitem obj (lit "name")) as [nm|]; simpl in D; [|discriminate].
  destruct (getitem obj (lit "parameters")) as [p|]; simpl in D;
    [|discriminate].
  destruct (build_call_record nm (dumps p)); simpl in D; [|discriminate].
  inversion D. reflexivity.
Qed.

Lemma ds_step_agrees_with_extract_witness :
  let cur := ds_block params_f ++ ds_block params_g in
  let tc := {| index := 0; dtc_type := lit "function"; id := sample_ids 5;
               function := record_pg |} in
  fst (DS.extract_tool_calls_streaming sample_ids (ds_block params_f) cur
         (ds_block params_g) 5) = call_event tc /\
  exists call,
    last_item (tool_calls (DS.extract_tool_calls cur)) = Some call /\
    tc_function call = function tc /\ tc_type call = dtc_type tc.
Proof.
  cbv zeta.
  assert (H : fst (DS.extract_tool_calls_streaming sample_ids
                     (ds_block params_f)
                     (ds_block params_f ++ ds_block params_g)
                     (ds_block params_g) 5)
              = call_event {| index := 0; dtc_type := lit "function";
                              id := sample_ids 5; function := record_pg |})
    by (vm_compute; reflexivity).
  split; [exact H|].
  exact (ds_step_agrees_with_extract _ _ _ _ _ _ H).
Defined.

(** X9.  A call the DeepSeek step emits stays: whatever text follows, the
    extractor returns that call for the longer text. *)
Theorem ds_emitted_call_stays (ids : nat -> str) (prev cur delta : str)
    (n : nat) (tc : DeltaToolCall) (more : str) :
  fst (DS.extract_tool_calls_streaming ids prev cur delta n) = call_event tc ->
  exists call,
    In call (tool_calls (DS.extract_tool_calls (cur ++ more))) /\
    tc_function call = function tc.
Proof.
  rewrite ds_step_eq, ds_tool_calls_eq.
  change (spans (ds_extractor ids) cur) with (DS.findall cur).
  destruct (last_item (DS.findall cur)) as [span|] eqn:L; [|discriminate].
  destruct (loads (strip span)); [|discriminate].
  cbn [fst x_decode ds_extractor].
  destruct (ds_span_call span) as [call|] eqn:D; [|discriminate].
  cbn [option_map]. intros H. inversion H; subst tc. cbn [function].
  exists call. split; [|reflexivity].
  destruct (ds_findall_app cur more) as [later ->].
  apply (keep_ok_intro _ _ span); [|exact D].
  apply in_or_app. left. exact (last_item_In _ _ L).
Qed.

Lemma ds_emitted_call_stays_witness :
  let tc := {| index := 0; dtc_type := lit "function"; id := sample_ids 0;
               function := record_pf |} in
  fst (DS.extract_tool_calls_streaming sample_ids [] (ds_block params_f)
         (ds_block params_f) 0) = call_event tc /\
  exists call,
    In call (tool_calls (DS.extract_tool_calls
                           (ds_block params_f ++ ds_block (lit "oops")))) /\
    tc_function call = function tc.
Proof.
  cbv zeta.
  assert (H : fst (DS.extract_tool_calls_streaming sample_ids []
                     (ds_block params_f) (ds_block params_f) 0)
              = call_event {| index := 0; dtc_type := lit "function";
                              id := sample_ids 0; function := record_pf |})
    by (vm_compute; reflexivity).
  split; [exact H|].
  exact (ds_emitted_call_stays _ _ _ _ _ _ (ds_block (lit "oops")) H).
Defined.

(** The instance of X10. *)

Lemma ds_ids_fresh_witness :
  NoDup (event_ids (trace (ds_extractor sample_ids)
                      [ds_block params_f; ds_block params_g] 0)).
Proof.
  exact (ds_ids_fresh sample_ids sample_ids_injective
           [ds_block params_f; ds_block params_g] 0).
Defined.

(** ** The Phi-4 extractor on a finished text *)

(** X11.  The Phi-4 extractor never raises, and its content is always a
    string: the split, which no handler guards, is by a match, and a match
    is never empty. *)
Theorem phi4_never_raises (text : str) :
  exists r c, Phi4.extract_tool_calls text = Ok r /\ content r = Some c.
Proof.
  rewrite phi4_extract_eq. cbv zeta. eexists. eexists.
  split; reflexivity.
Qed.

(** X12.  When no candidate of the Phi-4 pattern decodes, also when there
    are candidates, the text is returned whole and untrimmed, with no
    call. *)
Theorem phi4_undecoded_keeps_text (text : str) :
  (forall span, In span (Phi4.findall text) -> phi4_span_call span = None) ->
  Phi4.extract_tool_calls text =
  Ok {| tools_called := false; tool_calls := []; content := Some text |}.
Proof.
  intros H. rewrite phi4_extract_eq. cbv zeta.
  rewrite (keep_ok_none _ _ H). reflexivity.
Qed.

Lemma phi4_undecoded_keeps_text_witness :
  let text := lit " try " ++ call_broken in
  Phi4.findall text = [call_broken] /\
  phi4_span_call call_broken = None /\
  Phi4.extract_tool_calls text =
  Ok {| tools_called := false; tool_calls := []; content := Some text |}.
Proof.
  cbv zeta.
  assert (F : Phi4.findall (lit " try " ++ call_broken) = [call_broken])
    by (vm_compute; reflexivity).
  assert (D : phi4_span_call call_broken = None) by (vm_compute; reflexivity).
  split; [exact F|]. split; [exact D|].
  apply phi4_undecoded_keeps_text. rewrite F.
  intros span [<-|[]]. exact D.
Defined.

(** The instance of X13. *)

Lemma phi4_leftover_is_trimmed_prefix_witness :
  let text := lit " see " ++ call_f in
  let r := {| tools_called := true; tool_calls := [function_call record_f];
              content := Some (lit "see") |} in
  Phi4.extract_tool_calls text = Ok r /\
  tool_calls r <> [] /\
  exists m ms,
    finditer Phi4.TOOL_CALL_REGEX text = m :: ms /\
    content r = Some (strip (text_before text m)).
Proof.
  cbv zeta.
  assert (E : Phi4.extract_tool_calls (lit " see " ++ call_f)
              = Ok {| tools_called := true;
                      tool_calls := [function_call record_f];
                      content := Some (lit "see") |})
    by (vm_compute; reflexivity).
  assert (H : [function_call record_f] <> []) by discriminate.
  split; [exact E|]. split; [exact H|].
  exact (phi4_leftover_is_trimmed_prefix _ _ E H).
Defined.

(** X14.  What the Phi-4 extractor keeps beside its calls has no white space
    at either end and holds no candidate of the pattern. *)
Theorem phi4_content_clean (text : str) (r : ExtractedToolCallInformation)
    (c : str) :
  Phi4.extract_tool_calls text = Ok r ->
  tools_called r = true ->
  content r = Some c ->
  no_outer_space c /\ Phi4.findall c = [].
Proof.
  rewrite phi4_extract_eq. cbv zeta. intros Hr. inversion Hr; subst r.
  clear Hr. cbn [tools_called content]. intros Ht Hc. rewrite Ht in Hc.
  unfold Phi4.findall in *.
  destruct (finditer Phi4.TOOL_CALL_REGEX text) as [|m ms] eqn:F;
    [discriminate|].
  cbn [map] in Hc. rewrite (first_match_find _ _ _ _ F) in Hc.
  inversion Hc; subst c. clear Hc Ht.
  split; [apply strip_no_outer_space|].
  set (c := strip (firstn (m_start m) text)).
  destruct (finditer Phi4.TOOL_CALL_REGEX c) as [|m' ms'] eqn:F';
    [reflexivity|exfalso].
  assert (Hin : In m' (finditer Phi4.TOOL_CALL_REGEX c))
    by (rewrite F'; left; reflexivity).
  pose proof (phi4_match_nonempty c m' Hin) as Hne.
  apply finditer_In in Hin. destruct Hin as [_ Hm'].
  pose proof (match_at_bounds _ _ _ _ _ Hm') as Hb.
  assert (Hpos : m_start m' < m_end m' /\ m_start m' < length c).
  { unfold group0, slice in Hne. rewrite length_skipn in Hb.
    destruct (m_end m' - m_start m') eqn:D; [contradiction Hne; reflexivity|].
    lia. }
  apply scan_first in F. destruct F as (k & Hk & _ & _ & Hleft).
  cbn [Nat.add] in Hk, Hleft. subst k.
  destruct (strip_segment (firstn (m_start m) text)) as (pre & post & Hseg).
  fold c in Hseg.
  assert (Hlen : length pre + length c <= m_start m).
  { apply (f_equal (@length N)) in Hseg. rewrite !length_app in Hseg.
    pose proof (firstn_le_length (m_start m) text). lia. }
  assert (Htext : text = pre ++ c ++ (post ++ skipn (m_start m) text)).
  { rewrite <- (firstn_skipn (m_start m) text) at 1. rewrite Hseg.
    now rewrite <- !app_assoc. }
  apply (match_at_stable _ _ _ _ _ Hm' (length pre + m_start m')
           (skipn (length pre + m_start m') text)).
  - rewrite Htext at 1. rewrite skipn_app.
    rewrite (skipn_all2 pre) by lia.
    replace (length pre + m_start m' - length pre) with (m_start m') by lia.
    cbn [app]. rewrite skipn_app_le by lia.
    apply startswith_app_r, startswith_firstn.
  - apply Hleft. lia.
Qed.

Lemma phi4_content_clean_witness :
  let text := lit " see " ++ call_f in
  let r := {| tools_called := true; tool_calls := [function_call record_f];
              content := Some (lit "see") |} in
  Phi4.extract_tool_calls text = Ok r /\
  no_outer_space (lit "see") /\ Phi4.findall (lit "see") = [].
Proof.
  cbv zeta.
  assert (E : Phi4.extract_tool_calls (lit " see " ++ call_f)
              = Ok {| tools_called := true;
                      tool_calls := [function_call record_f];
                      content := Some (lit "see") |})
    by (vm_compute; reflexivity).
  split; [exact E|].
  exact (phi4_content_clean _ _ _ E eq_refl eq_refl).
Defined.



(** ** The Phi-4 step in a session *)

(** X16.  More text never removes a candidate of the Phi-4 pattern nor
    changes it: the candidates of a text are, in order, the first
    candidates of every text it is the beginning of. *)
Theorem phi4_candidates_persist (text more : str) :
  exists later, Phi4.findall (text ++ more) = Phi4.findall text ++ later.
Proof. apply phi4_steady_findall. Qed.

(** X17.  In a Phi-4 session the content events come first: once a step has
    returned anything else, no later step returns content. *)
Theorem phi4_content_comes_first (deltas : list str)
    (n i j : nat) (ci cj : str) (oi oj : option DeltaMessage) (f : str) :
  i <= j ->
  nth_error (trace phi4_extractor deltas n) i = Some (ci, oi) ->
  nth_error (trace phi4_extractor deltas n) j = Some (cj, oj) ->
  oj = content_event f ->
  exists f', oi = content_event f'.
Proof.
  apply (steady_content_first phi4_extractor phi4_steady
           phi4_step_by_last_span).
Qed.

Lemma phi4_content_comes_first_witness :
  let tr := trace phi4_extractor [lit "a"; lit "b"; call_f] 0 in
  nth_error tr 0 = Some (lit "a", content_event (lit "a")) /\
  nth_error tr 1 = Some (lit "ab", content_event (lit "b")) /\
  exists f', content_event (lit "a") = content_event f'.
Proof.
  cbv zeta.
  assert (H0 : nth_error (trace phi4_extractor [lit "a"; lit "b"; call_f] 0) 0
               = Some (lit "a", content_event (lit "a")))
    by (vm_compute; reflexivity).
  assert (H1 : nth_error (trace phi4_extractor [lit "a"; lit "b"; call_f] 0) 1
               = Some (lit "ab", content_event (lit "b")))
    by (vm_compute; reflexivity).
  split; [exact H0|]. split; [exact H1|].
  exact (phi4_content_comes_first _ 0 0 1 _ _ _ _ (lit "b")
           (Nat.le_succ_diag_r 0) H0 H1 eq_refl).
Defined.

(** X24.  While the text has no closing brace, the Phi-4 step passes the
    fragment on as content, and the extractor returns the text whole. *)
Theorem phi4_open_object_streams_as_content (prev cur delta : str) :
  find [125%N] cur = None ->
  Phi4.extract_tool_calls_streaming prev cur delta = content_event delta /\
  Phi4.extract_tool_calls cur =
  Ok {| tools_called := false; tool_calls := []; content := Some cur |}.
Proof.
  intros H. rewrite phi4_step_eq, phi4_extract_eq. cbv zeta.
  unfold spans, Phi4.findall. cbn [x_pattern phi4_extractor].
  rewrite (phi4_no_brace_no_candidate _ H). split; reflexivity.
Qed.

Lemma phi4_open_object_streams_as_content_witness :
  let cur := jlit "{'name': 'f', 'arguments': {'a': 1" in
  find [125%N] cur = None /\
  Phi4.extract_tool_calls_streaming (jlit "{'name': 'f', 'arguments': ")
    cur (jlit "{'a': 1")
  = content_event (jlit "{'a': 1") /\
  Phi4.extract_tool_calls cur =
  Ok {| tools_called := false; tool_calls := []; content := Some cur |}.
Proof.
  cbv zeta.
  assert (H : find [125%N] (jlit "{'name': 'f', 'arguments': {'a': 1") = None)
    by (vm_compute; reflexivity).
  split; [exact H|].
  exact (phi4_open_object_streams_as_content _ _ _ H).
Defined.

(** X18.  In a Phi-4 session the index of the emitted calls never goes
    down. *)
Theorem phi4_index_grows (deltas : list str) (n i j : nat) (ci cj : str)
    (oi oj : option DeltaMessage) (tci tcj : DeltaToolCall) :
  i <= j ->
  nth_error (trace phi4_extractor deltas n) i = Some (ci, oi) ->
  nth_error (trace phi4_extractor deltas n) j = Some (cj, oj) ->
  oi = call_event tci -> oj = call_event tcj ->
  index tci <= index tcj.
Proof.
  intros Hij Hi Hj Hci Hcj. unfold trace in Hi, Hj.
  destruct (session_grows _ _ _ _ _ _ _ _ _ _ Hij Hi Hj) as [x Hx].
  apply session_nth in Hi. apply session_nth in Hj.
  destruct Hi as (pi_ & di & ki & _ & Hi).
  destruct Hj as (pj & dj & kj & _ & Hj).
  assert (Q : forall p c d k o tc,
             o = fst (x_step phi4_extractor p c d k) -> o = call_event tc ->
             index tc = length (Phi4.findall c) - 1).
  { intros p c d k o tc Ho Hc.
    change (fst (x_step phi4_extractor p c d k))
      with (Phi4.extract_tool_calls_streaming p c d) in Ho.
    rewrite phi4_step_eq in Ho.
    change (spans phi4_extractor c) with (Phi4.findall c) in Ho.
    rewrite Hc in Ho.
    destruct (last_item (Phi4.findall c)) as [span|]; [|discriminate].
    destruct (x_decode phi4_extractor span); [|discriminate].
    inversion Ho. reflexivity. }
  rewrite (Q _ _ _ _ _ _ Hi Hci), (Q _ _ _ _ _ _ Hj Hcj). subst cj.
  destruct (phi4_steady_findall ci x) as [later ->].
  rewrite length_app. lia.
Qed.

Lemma phi4_index_grows_witness :
  let tr := trace phi4_extractor [call_f; lit " and "; call_g] 0 in
  nth_error tr 0 = Some (call_f, call_event (phi4_event 0 record_f)) /\
  nth_error tr 2 = Some (call_f ++ lit " and " ++ call_g,
                         call_event (phi4_event 1 record_g)) /\
  index (phi4_event 0 record_f) <= index (phi4_event 1 record_g).
Proof.
  cbv zeta.
  assert (H0 : nth_error (trace phi4_extractor
                            [call_f; lit " and "; call_g] 0) 0
               = Some (call_f, call_event (phi4_event 0 record_f)))
    by (vm_compute; reflexivity).
  assert (H2 : nth_error (trace phi4_extractor
                            [call_f; lit " and "; call_g] 0) 2
               = Some (call_f ++ lit " and " ++ call_g,
                       call_event (phi4_event 1 record_g)))
    by (vm_compute; reflexivity).
  split; [exact H0|]. split; [exact H2|].
  exact (phi4_index_grows _ 0 0 2 _ _ _ _ _ _ (Nat.le_0_l 2) H0 H2
           eq_refl eq_refl).
Defined.

(** X19.  A call the Phi-4 step emits is the last call the extractor returns
    for the same text. *)
Theorem phi4_step_agrees_with_extract (prev cur delta : str)
    (tc : DeltaToolCall) :
  Phi4.extract_tool_calls_streaming prev cur delta = call_event tc ->
  exists r call,
    Phi4.extract_tool_calls cur = Ok r /\
    last_item (tool_calls r) = Some call /\
    tc_function call = function tc /\ tc_type call = dtc_type tc.
Proof.
  rewrite phi4_step_eq, phi4_extract_eq. cbv zeta.
  change (spans phi4_extractor cur) with (Phi4.findall cur).
  destruct (last_item (Phi4.findall cur)) as [span|] eqn:L; [|discriminate].
  cbn [x_decode phi4_extractor].
  destruct (phi4_span_call span) as [call|] eqn:D; [|discriminate].
  cbn [option_map]. intros H. inversion H; subst tc. cbn [function dtc_type].
  eexists. exists call. split; [reflexivity|]. cbn [tool_calls].
  split; [exact (last_item_keep_ok _ _ _ _ L D)|].
  split; [reflexivity|].
  unfold phi4_span_call, Phi4.parse_call, FunctionCall in D.
  destruct (loads span) as [obj|]; simpl in D; [|discriminate].
  destruct (getitem obj (lit "name")) as [nm|]; simpl in D; [|discriminate].
  destruct (getitem obj (lit "arguments")) as [p|]; simpl in D;
    [|discriminate].
  destruct (build_call_record nm (dumps p)); simpl in D; [|discriminate].
  inversion D. reflexivity.
Qed.

Lemma phi4_step_agrees_with_extract_witness :
  let cur := call_f ++ lit " and " ++ call_g in
  Phi4.extract_tool_calls_streaming (call_f ++ lit " and ") cur call_g
  = call_event (phi4_event 1 record_g) /\
  exists r call,
    Phi4.extract_tool_calls cur = Ok r /\
    last_item (tool_calls r) = Some call /\
    tc_function call = function (phi4_event 1 record_g) /\
    tc_type call = dtc_type (phi4_event 1 record_g).
Proof.
  cbv zeta.
  assert (H : Phi4.extract_tool_calls_streaming (call_f ++ lit " and ")
                (call_f ++ lit " and " ++ call_g) call_g
              = call_event (phi4_event 1 record_g))
    by (vm_compute; reflexivity).
  split; [exact H|].
  exact (phi4_step_agrees_with_extract _ _ _ _ H).
Defined.

(** X20.  A call the Phi-4 step emits stays: whatever text follows, the
    extractor returns that call for the longer text. *)
Theorem phi4_emitted_call_stays (prev cur delta : str) (tc : DeltaToolCall)
    (more : str) :
  Phi4.extract_tool_calls_streaming prev cur delta = call_event tc ->
  exists r call,
    Phi4.extract_tool_calls (cur ++ more) = Ok r /\
    In call (tool_calls r) /\
    tc_function call = function tc.
Proof.
  rewrite phi4_step_eq, phi4_extract_eq. cbv zeta.
  change (spans phi4_extractor cur) with (Phi4.findall cur).
  destruct (last_item (Phi4.findall cur)) as [span|] eqn:L; [|discriminate].
  cbn [x_decode phi4_extractor].
  destruct (phi4_span_call span) as [call|] eqn:D; [|discriminate].
  cbn [option_map]. intros H. inversion H; subst tc. cbn [function].
  eexists. exists call. split; [reflexivity|]. cbn [tool_calls].
  split; [|reflexivity].
  destruct (phi4_steady_findall cur more) as [later ->].
  apply (keep_ok_intro _ _ span); [|exact D].
  apply in_or_app. left. exact (last_item_In _ _ L).
Qed.

Lemma phi4_emitted_call_stays_witness :
  Phi4.extract_tool_calls_streaming [] call_f call_f
  = call_event (phi4_event 0 record_f) /\
  exists r call,
    Phi4.extract_tool_calls (call_f ++ call_broken) = Ok r /\
    In call (tool_calls r) /\
    tc_function call = function (phi4_event 0 record_f).
Proof.
  assert (H : Phi4.extract_tool_calls_streaming [] call_f call_f
              = call_event (phi4_event 0 record_f))
    by (vm_compute; reflexivity).
  split; [exact H|].
  exact (phi4_emitted_call_stays _ _ _ _ call_broken H).
Defined.

(** ** Both parsers *)


(** The instance of X22. *)

